(** * YARPC inbound dispatch: the TChannel handler and its response writer

    A shallow embedding of [transport/tchannel/handler.go] (the dispatcher
    [handler.handle] and the [responseWriter] state machine) together with
    the HTTP header conventions exercised by [v2/yarpchttp/handler_test.go].

    Go's [error] interface becomes the type [error], a [nil] error is
    [None]; pointer receivers become explicit state passing; the duck-typed
    [inboundCall] / [inboundCallResponse] interfaces are realised by a
    recording fake, as the package's own tests do. *)

From Stdlib Require Import ZArith Strings.Byte Strings.Ascii Strings.String.
From stdpp Require Import gmap strings list fin_maps pretty.

Local Open Scope string_scope.
Local Open Scope list_scope.

(** ** Errors *)

(** [tchannel.SystemErrCode]: the error-code enum of the wire protocol. *)
Inductive SystemErrCode :=
| ErrCodeTimeout
| ErrCodeCancelled
| ErrCodeBusy
| ErrCodeDeclined
| ErrCodeUnexpected
| ErrCodeBadRequest
| ErrCodeNetwork
| ErrCodeProtocol.

(** Go [error] values.  [errorString] is what [errors.New] and [fmt.Errorf]
    build.  A [tchannel.SystemError] carries a code and a message; the
    message is kept as the format string handed to [tchannel.NewSystemError]
    and, where the format has a [%v], the error it is applied to. *)
Inductive error :=
| errorString (msg : string)
| SystemError (code : SystemErrCode) (msg : string)
| SystemErrorf (code : SystemErrCode) (fmt : string) (arg : error).

(** [tchannel.NewSystemError(code, fmt, err)] *)
Definition NewSystemError (code : SystemErrCode) (fmt : string) (arg : error)
  : error := SystemErrorf code fmt arg.

(** [tchannel.ErrTimeoutRequired], a constant of the tchannel-go library. *)
Definition ErrTimeoutRequired : error :=
  SystemError ErrCodeBadRequest "timeout required".

(** ** Headers *)

Definition lower_ascii (c : ascii) : ascii :=
  let n := N_of_ascii c in
  if ((65 <=? n) && (n <=? 90))%N then ascii_of_N (n + 32) else c.

Fixpoint ToLower (s : string) : string :=
  match s with
  | EmptyString => EmptyString
  | String c rest => String (lower_ascii c) (ToLower rest)
  end.

(** [transport.Headers] is a Go map from string to string
    ([make(transport.Headers)], [range h]). *)
Abbreviation Headers := (gmap string string).

(** Modelled from the spec: [transport.Headers.Set] is not under src.
    "Every lookup/store normalizes keys to lower-case ASCII.  Values are
    stored verbatim"; [Set] is last-writer-wins. *)
Definition Headers_Set (k v : string) (h : Headers) : Headers :=
  <[ToLower k := v]> h.

(** A header map all of whose keys are already in lower case. *)
Definition canonical (h : Headers) : Prop :=
  ∀ k, is_Some (h !! k) → ToLower k = k.

(** ** The call and its response, as a recording fake *)

(** [tchannel.Format] is a Go string type. *)
Abbreviation tchannel_Format := string (only parsing).
Abbreviation bytes := (list Byte.byte) (only parsing).

(** [transport.Request] as built by [handler.handle]; its field [Headers]
    is [ReqHeaders] here, [Headers] being the name of the type. *)
Record Request := mkRequest {
  Caller : string;
  Service : string;
  Encoding : string;
  Procedure : string;
  ReqHeaders : Headers;
  Body : bytes;
  TTL : Z;
}.

(** Everything the dispatcher and the writer do to the call, oldest first. *)
Inductive event :=
| Arg2ReaderCalled
| Arg3ReaderCalled
| HandleInvoked (req : Request)
| RequestBodyClosed
| Arg2Written (f : tchannel_Format) (h : Headers)
| Arg3WriterOpened
| Arg3Written (s : bytes)
| Arg3WriterClosed
| SystemErrorSent (e : error).

(** A scripted I/O failure: the error returned, and (for a body write) how
    many bytes went out before it. *)
Record fault := Fault { fault_err : error; fault_written : nat }.

(** The state behind the [inboundCallResponse] interface: the log of what
    reached it, and the outcomes the transport will give to the next I/O
    operations ([None], or an exhausted script, is success). *)
Record inboundCallResponse := mkResponse {
  log : list event;
  script : list (option fault);
}.

Definition record (e : event) (r : inboundCallResponse) : inboundCallResponse :=
  {| log := log r ++ [e]; script := script r |}.

Definition next_outcome (r : inboundCallResponse)
  : option fault * inboundCallResponse :=
  match script r with
  | [] => (None, r)
  | o :: rest => (o, {| log := log r; script := rest |})
  end.

(** [tchannel.ArgWriter]: the handle on the arg3 stream of the response. *)
Inductive ArgWriter := arg3Writer.

(** Modelled from the spec: [writeHeaders] is not under src.  "Response
    headers go through [Arg2Writer]", encoded for the [Format]; one I/O
    operation that either puts the headers on the wire or fails. *)
Definition writeHeaders (f : tchannel_Format) (h : Headers) (r : inboundCallResponse)
  : option error * inboundCallResponse :=
  match next_outcome r with
  | (Some ft, r1) => (Some (fault_err ft), r1)
  | (None, r1) => (None, record (Arg2Written f h) r1)
  end.

(** [inboundCallResponse.Arg3Writer()] *)
Definition Arg3Writer (r : inboundCallResponse)
  : (error + ArgWriter) * inboundCallResponse :=
  match next_outcome r with
  | (Some ft, r1) => (inl (fault_err ft), r1)
  | (None, r1) => (inr arg3Writer, record Arg3WriterOpened r1)
  end.

(** [ArgWriter.Write(s)]: returns the number of bytes written and an error. *)
Definition ArgWriter_Write (s : bytes) (r : inboundCallResponse)
  : (nat * option error) * inboundCallResponse :=
  match next_outcome r with
  | (Some ft, r1) =>
      let n := Nat.min (fault_written ft) (length s) in
      ((n, Some (fault_err ft)), record (Arg3Written (take n s)) r1)
  | (None, r1) => ((length s, None), record (Arg3Written s) r1)
  end.

(** [ArgWriter.Close()] *)
Definition ArgWriter_Close (r : inboundCallResponse)
  : option error * inboundCallResponse :=
  match next_outcome r with
  | (Some ft, r1) => (Some (fault_err ft), r1)
  | (None, r1) => (None, record Arg3WriterClosed r1)
  end.

(** [inboundCallResponse.SendSystemError(err)].  Every caller in handler.go
    discards its result, so the fake only records the call. *)
Definition SendSystemError (e : error) (r : inboundCallResponse)
  : inboundCallResponse := record (SystemErrorSent e) r.

(** ** responseWriter *)

Record responseWriter := mkResponseWriter {
  failedWith : option error;
  bodyWriter : option ArgWriter;
  format : tchannel_Format;
  headers : Headers;
  response : inboundCallResponse;
  wroteHeaders : bool;
}.

Definition set_failedWith (e : error) (rw : responseWriter) : responseWriter :=
  {| failedWith := Some e; bodyWriter := bodyWriter rw; format := format rw;
     headers := headers rw; response := response rw;
     wroteHeaders := wroteHeaders rw |}.

Definition set_bodyWriter (w : ArgWriter) (rw : responseWriter) : responseWriter :=
  {| failedWith := failedWith rw; bodyWriter := Some w; format := format rw;
     headers := headers rw; response := response rw;
     wroteHeaders := wroteHeaders rw |}.

Definition set_headers (h : Headers) (rw : responseWriter) : responseWriter :=
  {| failedWith := failedWith rw; bodyWriter := bodyWriter rw;
     format := format rw; headers := h; response := response rw;
     wroteHeaders := wroteHeaders rw |}.

Definition set_response (r : inboundCallResponse) (rw : responseWriter)
  : responseWriter :=
  {| failedWith := failedWith rw; bodyWriter := bodyWriter rw;
     format := format rw; headers := headers rw; response := r;
     wroteHeaders := wroteHeaders rw |}.

Definition set_wroteHeaders (b : bool) (rw : responseWriter) : responseWriter :=
  {| failedWith := failedWith rw; bodyWriter := bodyWriter rw;
     format := format rw; headers := headers rw; response := response rw;
     wroteHeaders := b |}.

(** [newResponseWriter(call)], given the call's [Format()] and [Response()]. *)
Definition newResponseWriter (f : tchannel_Format) (r : inboundCallResponse)
  : responseWriter :=
  {| failedWith := None; bodyWriter := None; format := f; headers := ∅;
     response := r; wroteHeaders := false |}.

(** The value [AddHeaders] panics with. *)
Definition AddHeaders_panic : string :=
  "AddHeaders() cannot be called after calling Write().".


(** [for k, v := range h { rw.headers.Set(k, v) }].  Go leaves the order of
    a range over a map open; the fold takes one order, and for headers with
    lower-case keys every order gives the same ([merge_headers_any_order]). *)
Definition merge_headers (h pending : Headers) : Headers :=
  map_fold Headers_Set pending h.

(** [responseWriter.AddHeaders]: [Some v] is a panic with value [v]. *)
Definition AddHeaders (h : Headers) (rw : responseWriter)
  : option string * responseWriter :=
  if wroteHeaders rw then (Some AddHeaders_panic, rw)
  else (None, set_headers (merge_headers h (headers rw)) rw).

(** The tail of [responseWriter.Write], from [n, err := rw.bodyWriter.Write(s)]. *)
Definition Write_body (s : bytes) (rw : responseWriter)
  : (nat * option error) * responseWriter :=
  match ArgWriter_Write s (response rw) with
  | ((n, Some err), r) => ((n, Some err), set_failedWith err (set_response r rw))
  | ((n, None), r) => ((n, None), set_response r rw)
  end.

(** The part of [responseWriter.Write] from [if rw.bodyWriter == nil]. *)
Definition Write_open (s : bytes) (rw : responseWriter)
  : (nat * option error) * responseWriter :=
  match bodyWriter rw with
  | Some _ => Write_body s rw
  | None =>
      match Arg3Writer (response rw) with
      | (inl err, r) => ((0, Some err), set_failedWith err (set_response r rw))
      | (inr w, r) => Write_body s (set_bodyWriter w (set_response r rw))
      end
  end.

(** [responseWriter.Write] *)
Definition Write (s : bytes) (rw : responseWriter)
  : (nat * option error) * responseWriter :=
  match failedWith rw with
  | Some e => ((0, Some e), rw)
  | None =>
      if wroteHeaders rw then Write_open s rw
      else
        let rw1 := set_wroteHeaders true rw in
        match writeHeaders (format rw1) (headers rw1) (response rw1) with
        | (Some err, r) => ((0, Some err), set_failedWith err (set_response r rw1))
        | (None, r) => Write_open s (set_response r rw1)
        end
  end.

(** [responseWriter.Close] *)
Definition Close (rw : responseWriter) : option error * responseWriter :=
  let '(err, rw1) :=
    match bodyWriter rw with
    | Some _ =>
        let '(e, r) := ArgWriter_Close (response rw) in (e, set_response r rw)
    | None => (None, rw)
    end in
  match failedWith rw1 with
  | Some e => (Some e, rw1)
  | None => (err, rw1)
  end.

(** ** Handlers *)

(** What the user code behind [transport.Handler] can do with the
    [transport.ResponseWriter] it is lent (call [AddHeaders], call [Write]),
    and how it ends: by returning an error or nil, or by panicking.  The
    continuation of [DoAddHeaders] receives the panic value when the call
    panicked, so that a handler which recovers is covered as well as one
    which lets the panic through. *)
Inductive handler_prog :=
| Return (err : option error)
| Panic (v : string)
| DoAddHeaders (h : Headers) (k : option string → handler_prog)
| DoWrite (s : bytes) (k : nat → option error → handler_prog).

(** How a Go function call ends. *)
Inductive completion (A : Type) :=
| Returned (a : A)
| Panicked (v : string).
Arguments Returned {A} a.
Arguments Panicked {A} v.

Fixpoint run_handler (p : handler_prog) (rw : responseWriter)
  : completion (option error) * responseWriter :=
  match p with
  | Return err => (Returned err, rw)
  | Panic v => (Panicked v, rw)
  | DoAddHeaders h k =>
      let '(v, rw1) := AddHeaders h rw in run_handler (k v) rw1
  | DoWrite s k =>
      let '((n, err), rw1) := Write s rw in run_handler (k n err) rw1
  end.

(** [context.Context], as far as the dispatcher looks at it. *)
Record Context := mkContext { Deadline : option Z }.

(** [transport.Handler]: [Handle(ctx, treq, rw) error]. *)
Abbreviation Handler := (Context → Request → handler_prog) (only parsing).

(** The arg2 frame of the request.  Its encoding depends on the format and
    its decoder is not under src, so a frame is represented by what decoding
    it for each format gives. *)
Abbreviation arg2Frame := (string → error + Headers) (only parsing).

(** The fake behind the [inboundCall] interface. *)
Record inboundCall := mkCall {
  ServiceName : string;
  CallerName : string;
  MethodString : string;
  Format : tchannel_Format;
  Arg2Reader : error + arg2Frame;
  Arg3Reader : error + bytes;
  Response : inboundCallResponse;
}.

(** Modelled from the spec: [readHeaders] is not under src.  "arg2 carries
    headers; encoding of arg2 depends on Format ... Headers are read with
    [Arg2Reader]": open the reader, then decode for the format. *)
Definition readHeaders (f : tchannel_Format) (getReader : error + arg2Frame)
  : error + Headers :=
  match getReader with
  | inl err => inl err
  | inr frame => frame f
  end.

(** [time.Duration] is an int64 count of nanoseconds and [Time.Sub]
    saturates. *)
Definition maxDuration : Z := 2 ^ 63 - 1.
Definition minDuration : Z := - 2 ^ 63.
Definition Time_Sub (t u : Z) : Z := Z.max minDuration (Z.min maxDuration (t - u)).

(** [handler.handle].  [now] is what [time.Now()] reads.  The two deferred
    calls run last in, first out, on every way out of the function body that
    follows them; an unrecovered panic goes on to the caller after them. *)
Definition handle (h : Handler) (ctx : Context) (now : Z) (call : inboundCall)
  : completion unit * inboundCallResponse :=
  match Deadline ctx with
  | None => (Returned (), SendSystemError ErrTimeoutRequired (Response call))
  | Some deadline =>
      let r1 := record Arg2ReaderCalled (Response call) in
      match readHeaders (Format call) (Arg2Reader call) with
      | inl err =>
          (Returned (),
           SendSystemError
             (NewSystemError ErrCodeUnexpected "failed to read headers: %v" err) r1)
      | inr headers =>
          let r2 := record Arg3ReaderCalled r1 in
          match Arg3Reader call with
          | inl err =>
              (Returned (),
               SendSystemError
                 (NewSystemError ErrCodeUnexpected "failed to read body: %v" err) r2)
          | inr body =>
              let rw := newResponseWriter (Format call) r2 in
              let treq :=
                {| Caller := CallerName call;
                   Service := ServiceName call;
                   Encoding := Format call;
                   Procedure := MethodString call;
                   ReqHeaders := headers;
                   Body := body;
                   TTL := Time_Sub deadline now |} in
              let '(res, rw1) :=
                run_handler (h ctx treq)
                  (set_response (record (HandleInvoked treq) (response rw)) rw) in
              let rw2 :=
                match res with
                | Returned (Some err) =>
                    set_response
                      (SendSystemError
                         (NewSystemError ErrCodeUnexpected "internal error: %v" err)
                         (response rw1)) rw1
                | _ => rw1
                end in
              let '(_, rw3) := Close rw2 in
              let r3 := record RequestBodyClosed (response rw3) in
              (match res with
               | Returned _ => Returned ()
               | Panicked v => Panicked v
               end, r3)
          end
      end
  end.

(** ** Reading the log *)

Definition is_flush (e : event) : bool :=
  match e with Arg2Written _ _ => true | _ => false end.

Definition is_body (e : event) : bool :=
  match e with
  | Arg3WriterOpened | Arg3Written _ | Arg3WriterClosed => true
  | _ => false
  end.

(** No event of the body stream comes before the first header flush. *)
Fixpoint headers_before_body (l : list event) : bool :=
  match l with
  | [] => true
  | e :: rest =>
      if is_flush e then true else negb (is_body e) && headers_before_body rest
  end.

Definition flushed (l : list event) : bool := existsb is_flush l.

(** The header frames on the wire, in order. *)
Definition flushed_headers (l : list event) : list (string * Headers) :=
  omap (λ e, match e with Arg2Written f h => Some (f, h) | _ => None end) l.

(** The bytes of the response body on the wire. *)
Definition body_bytes (l : list event) : bytes :=
  concat (omap (λ e, match e with Arg3Written s => Some s | _ => None end) l).

(** The system errors sent, in order. *)
Definition system_errors (l : list event) : list error :=
  omap (λ e, match e with SystemErrorSent x => Some x | _ => None end) l.

(** The requests [Handle] was invoked with, in order. *)
Definition handled (l : list event) : list Request :=
  omap (λ e, match e with HandleInvoked q => Some q | _ => None end) l.

(** [tchannel.GetSystemErrorCode] on a non-nil error: the code of a system
    error, [ErrCodeUnexpected] for any other error. *)
Definition GetSystemErrorCode (e : error) : SystemErrCode :=
  match e with
  | SystemError c _ | SystemErrorf c _ _ => c
  | errorString _ => ErrCodeUnexpected
  end.

(** What links the fields of a writer that was made by [newResponseWriter]
    on a response whose log was [base] and then only used through
    [AddHeaders], [Write] and [Close]; [added] is what it logged. *)
Record writer_inv (base : list event) (rw : responseWriter)
  (added : list event) : Prop := {
  inv_log : log (response rw) = base ++ added;
  inv_only : Forall (λ e, is_flush e || is_body e = true) added;
  inv_order : headers_before_body added = true;
  inv_flushed :
    wroteHeaders rw = true → failedWith rw = None → flushed added = true;
  inv_body_flushed : is_Some (bodyWriter rw) → flushed added = true;
  inv_open :
    wroteHeaders rw = false → bodyWriter rw = None ∧ failedWith rw = None;
  inv_body :
    wroteHeaders rw = true → failedWith rw = None → is_Some (bodyWriter rw);
}.

(** The states of the spec's writer state machine that the fields tell
    apart. *)
Definition Open (rw : responseWriter) : Prop :=
  failedWith rw = None ∧ wroteHeaders rw = false ∧ bodyWriter rw = None.

Definition BodyOpen (rw : responseWriter) : Prop :=
  failedWith rw = None ∧ wroteHeaders rw = true ∧ is_Some (bodyWriter rw).

(** The request [handler.handle] builds for a call it accepts, and the
    writer with which [Handle] is entered. *)
Definition treq_of (call : inboundCall) (headers : Headers) (body : bytes)
  (deadline now : Z) : Request :=
  {| Caller := CallerName call;
     Service := ServiceName call;
     Encoding := Format call;
     Procedure := MethodString call;
     ReqHeaders := headers;
     Body := body;
     TTL := Time_Sub deadline now |}.

Definition rw_of (call : inboundCall) (treq : Request) : responseWriter :=
  newResponseWriter (Format call)
    (record (HandleInvoked treq)
       (record Arg3ReaderCalled (record Arg2ReaderCalled (Response call)))).

(** The system error [handler.handle] sends once [Handle] has ended with
    [res]: one when it returned an error, none when it returned nil or
    panicked. *)
Definition sent_after (res : completion (option error)) : list event :=
  match res with
  | Returned (Some err) =>
      [SystemErrorSent
         (NewSystemError ErrCodeUnexpected "internal error: %v" err)]
  | _ => []
  end.

(** ** HTTP header conventions *)

Definition upper_ascii (c : ascii) : ascii :=
  let n := N_of_ascii c in
  if ((97 <=? n) && (n <=? 122))%N then ascii_of_N (n - 32) else c.

Fixpoint canonical_from (upper : bool) (s : string) : string :=
  match s with
  | EmptyString => EmptyString
  | String c rest =>
      String (if upper then upper_ascii c else lower_ascii c)
        (canonical_from (Ascii.eqb c "-") rest)
  end.

(** [textproto.CanonicalMIMEHeaderKey], the form in which [http.Header]
    keeps names ([Set], [Add] and [Get] all go through it), for names made
    of token characters. *)
Definition CanonicalMIMEHeaderKey (s : string) : string := canonical_from true s.

(** [http.Header], one value per name. *)
Abbreviation httpHeader := (gmap string string).

Definition httpHeader_Set (k v : string) (m : httpHeader) : httpHeader :=
  <[CanonicalMIMEHeaderKey k := v]> m.

Definition httpHeader_Get (k : string) (m : httpHeader) : option string :=
  m !! CanonicalMIMEHeaderKey k.

Definition ApplicationHeaderPrefix : string := "Rpc-Header-".

(** [strings.HasPrefix(s, p)] and [s[len(p):]] in one. *)
Fixpoint strip_prefix (p s : string) : option string :=
  match p, s with
  | EmptyString, _ => Some s
  | String a p', String b s' =>
      if Ascii.eqb a b then strip_prefix p' s' else None
  | String _ _, EmptyString => None
  end.

(** Modelled from the spec: the yarpchttp handler is not under src (only
    its test is).  "any request header with prefix [Rpc-Header-] becomes a
    user header with that prefix stripped and lowercased.  Additionally, an
    allowlist of exact header names (grab headers) may be configured to
    pass through unprefixed (key is lowercased)."  One request header. *)
Definition fromHTTPHeader (grabHeaders : gset string) (k v : string)
  (to : Headers) : Headers :=
  let to1 :=
    if decide (ToLower k ∈ grabHeaders) then Headers_Set k v to else to in
  match strip_prefix ApplicationHeaderPrefix k with
  | Some key => Headers_Set key v to1
  | None => to1
  end.

(** Modelled from the spec: the yarpchttp handler is not under src.  The
    user headers of a request: [fromHTTPHeader] over all its headers. *)
Definition fromHTTPHeaders (grabHeaders : gset string) (from : httpHeader)
  : Headers := map_fold (fromHTTPHeader grabHeaders) ∅ from.

(** Modelled from the spec: the yarpchttp response writer is not under src.
    "user headers echoed with [Rpc-Header-] prefix", onto the headers [to]
    of the response. *)
Definition toHTTPHeaders (from : Headers) (to : httpHeader) : httpHeader :=
  map_fold (λ k v acc, httpHeader_Set (ApplicationHeaderPrefix +:+ k) v acc)
    to from.

(** ** The frames of a response *)

(** The events that are frames of the response: the header frame and the
    events of the body stream. *)
Definition is_frame (e : event) : bool := is_flush e || is_body e.

Definition frames (l : list event) : list event := List.filter is_frame l.

Definition is_written (e : event) : bool :=
  match e with Arg3Written _ => true | _ => false end.

(** Body writes, then at most one close of the body stream, and nothing
    after it. *)
Fixpoint body_shape (l : list event) : bool :=
  match l with
  | [] => true
  | Arg3Written _ :: rest => body_shape rest
  | Arg3WriterClosed :: rest => match rest with [] => true | _ => false end
  | _ => false
  end.

(** What a response may look like on the wire: nothing; or one header
    frame; or one header frame, the opening of the body stream, and a body. *)
Definition response_shape (l : list event) : bool :=
  match l with
  | [] => true
  | Arg2Written _ _ :: rest =>
      match rest with
      | [] => true
      | Arg3WriterOpened :: body => body_shape body
      | _ => false
      end
  | _ => false
  end.

(** How the fields of a writer made by [newResponseWriter] tell what it has
    put on the wire so far. *)
Record writer_shape (base : list event) (rw : responseWriter)
  (added : list event) : Prop := {
  shape_log : log (response rw) = base ++ added;
  shape_open :
    wroteHeaders rw = false →
    added = [] ∧ bodyWriter rw = None ∧ failedWith rw = None;
  shape_unopened :
    wroteHeaders rw = true → bodyWriter rw = None →
    is_Some (failedWith rw) ∧
    (added = [] ∨ added = [Arg2Written (format rw) (headers rw)]);
  shape_body :
    is_Some (bodyWriter rw) →
    wroteHeaders rw = true ∧
    ∃ ws, added = Arg2Written (format rw) (headers rw) :: Arg3WriterOpened :: ws ∧
          forallb is_written ws = true;
}.

(** What closing the writer puts on the wire: the close of the body stream
    when the body stream is open and the transport lets it be closed. *)
Definition closing (rw : responseWriter) : list event :=
  match bodyWriter rw with
  | Some _ =>
      match (ArgWriter_Close (response rw)).1 with
      | None => [Arg3WriterClosed]
      | Some _ => []
      end
  | None => []
  end.

(** A handler program that never calls [Write]. *)
Fixpoint never_writes (p : handler_prog) : Prop :=
  match p with
  | Return _ | Panic _ => True
  | DoAddHeaders _ k => ∀ v, never_writes (k v)
  | DoWrite _ _ => False
  end.

(** A call [handler.handle] hands to the handler: the context has a
    deadline, the headers can be read and the body reader opens. *)
Definition accepted (ctx : Context) (call : inboundCall) : Prop :=
  is_Some (Deadline ctx) ∧
  (∃ hs, readHeaders (Format call) (Arg2Reader call) = inr hs) ∧
  (∃ body, Arg3Reader call = inr body).

(** ** [http.Header] with all the values of a name *)

(** [http.Header] is a Go map from names to slices of values, as
    [headerCopyWithout] of handler_test.go ranges over it. *)
Abbreviation http_Header := (gmap string (list string)).





(** ** The generated code of the Echo service *)

(** [wire.Type] and [wire.Value] of the thriftrw library.  The zero
    [wire.Value] has no valid type; [GetStruct] of a value that is not a
    struct is the struct with no fields. *)
Inductive wire_Type :=
| TBool | TI8 | TDouble | TI16 | TI32 | TI64 | TBinary | TStruct | TMap
| TSet | TList.

#[warnings="-register-all"] Inductive wire_Value :=
| ValueZero
| NewValueBool (b : bool)
| NewValueI8 (n : Z)
| NewValueDouble (bits : Z)
| NewValueI16 (n : Z)
| NewValueI32 (n : Z)
| NewValueI64 (n : Z)
| NewValueBinary (b : list Byte.byte)
| NewValueStruct (Fields : list (Z * wire_Value))
| NewValueMap (items : list (wire_Value * wire_Value))
| NewValueSet (items : list wire_Value)
| NewValueList (items : list wire_Value).

Definition wire_Value_Type (v : wire_Value) : option wire_Type :=
  match v with
  | ValueZero => None
  | NewValueBool _ => Some TBool
  | NewValueI8 _ => Some TI8
  | NewValueDouble _ => Some TDouble
  | NewValueI16 _ => Some TI16
  | NewValueI32 _ => Some TI32
  | NewValueI64 _ => Some TI64
  | NewValueBinary _ => Some TBinary
  | NewValueStruct _ => Some TStruct
  | NewValueMap _ => Some TMap
  | NewValueSet _ => Some TSet
  | NewValueList _ => Some TList
  end.

(** [field.Value.Type() == wire.TStruct] *)
Definition is_TStruct (v : wire_Value) : bool :=
  match wire_Value_Type v with Some TStruct => true | _ => false end.

Definition GetStruct (v : wire_Value) : list (Z * wire_Value) :=
  match v with NewValueStruct fields => fields | _ => [] end.

(** What the generated code uses of the types [Ping] and [Pong], which are
    declared in a file that is not under src: [ToWire], which returns a
    value and an error; [FromWire] on the zero value, as [_Ping_Read] and
    [_Pong_Read] call it, which gives what it leaves in the struct and an
    error; and [Equals]. *)
Class wireStruct (T : Type) := {
  ToWire : T → wire_Value * option error;
  FromWire : wire_Value → T * option error;
  Equals : T → T → bool;
}.

Section Echo.
Context {Ping Pong : Type} `{!wireStruct Ping} `{!wireStruct Pong}.

(** [Echo_Echo_Args]; its field [Ping] is [Ping_] here, [Ping] being the
    name of the type. *)
Record Echo_Echo_Args := mkEcho_Echo_Args { Ping_ : option Ping }.

Record Echo_Echo_Result := mkEcho_Echo_Result { Success : option Pong }.

(** [Echo_Echo_Args.ToWire] *)
Definition Echo_Echo_Args_ToWire (v : Echo_Echo_Args)
  : wire_Value * option error :=
  match Ping_ v with
  | Some p =>
      match ToWire p with
      | (w, Some err) => (w, Some err)
      | (w, None) => (NewValueStruct [(1%Z, w)], None)
      end
  | None => (NewValueStruct [], None)
  end.

(** [_Ping_Read]: the pointer it returns is never nil. *)
Definition _Ping_Read (w : wire_Value) : option Ping * option error :=
  let '(v, err) := FromWire w in (Some v, err).

(** The loop of [Echo_Echo_Args.FromWire] over the fields. *)
Fixpoint Echo_Echo_Args_FromWire_fields (fields : list (Z * wire_Value))
  (v : Echo_Echo_Args) : Echo_Echo_Args * option error :=
  match fields with
  | [] => (v, None)
  | (id, value) :: rest =>
      if (id =? 1)%Z then
        if is_TStruct value then
          let '(p, err) := _Ping_Read value in
          let v1 := {| Ping_ := p |} in
          match err with
          | Some e => (v1, Some e)
          | None => Echo_Echo_Args_FromWire_fields rest v1
          end
        else Echo_Echo_Args_FromWire_fields rest v
      else Echo_Echo_Args_FromWire_fields rest v
  end.

(** [Echo_Echo_Args.FromWire]: the struct as it is left, and the error. *)
Definition Echo_Echo_Args_FromWire (w : wire_Value) (v : Echo_Echo_Args)
  : Echo_Echo_Args * option error :=
  Echo_Echo_Args_FromWire_fields (GetStruct w) v.

(** [Echo_Echo_Args.Equals], the receiver and the argument being
    pointers that may be nil. *)
Definition Echo_Echo_Args_Equals (v rhs : option Echo_Echo_Args) : bool :=
  match v, rhs with
  | None, None => true
  | None, Some _ => false
  | Some _, None => false
  | Some a, Some b =>
      match Ping_ a, Ping_ b with
      | None, None => true
      | Some p, Some q => Equals p q
      | _, _ => false
      end
  end.

(** The error of [Echo_Echo_Result] when it has not exactly one field. *)
Definition one_field_error (count : nat) : error :=
  errorString
    ("Echo_Echo_Result should have exactly one field: got " +:+
     pretty count +:+ " fields").

(** [Echo_Echo_Result.ToWire] *)
Definition Echo_Echo_Result_ToWire (v : Echo_Echo_Result)
  : wire_Value * option error :=
  match Success v with
  | Some p =>
      match ToWire p with
      | (w, Some err) => (w, Some err)
      | (w, None) => (NewValueStruct [(0%Z, w)], None)
      end
  | None => (ValueZero, Some (one_field_error 0))
  end.

Definition _Pong_Read (w : wire_Value) : option Pong * option error :=
  let '(v, err) := FromWire w in (Some v, err).

Fixpoint Echo_Echo_Result_FromWire_fields (fields : list (Z * wire_Value))
  (v : Echo_Echo_Result) : Echo_Echo_Result * option error :=
  match fields with
  | [] => (v, None)
  | (id, value) :: rest =>
      if (id =? 0)%Z then
        if is_TStruct value then
          let '(p, err) := _Pong_Read value in
          let v1 := {| Success := p |} in
          match err with
          | Some e => (v1, Some e)
          | None => Echo_Echo_Result_FromWire_fields rest v1
          end
        else Echo_Echo_Result_FromWire_fields rest v
      else Echo_Echo_Result_FromWire_fields rest v
  end.

(** [Echo_Echo_Result.FromWire] *)
Definition Echo_Echo_Result_FromWire (w : wire_Value) (v : Echo_Echo_Result)
  : Echo_Echo_Result * option error :=
  match Echo_Echo_Result_FromWire_fields (GetStruct w) v with
  | (v1, Some e) => (v1, Some e)
  | (v1, None) =>
      let count := match Success v1 with Some _ => 1 | None => 0 end in
      if (count =? 1)%nat then (v1, None)
      else (v1, Some (one_field_error count))
  end.

(** [Echo_Echo_Helper]: [IsException], [WrapResponse] and
    [UnwrapResponse] (on a result pointer that is not nil). *)
Definition Echo_Echo_Helper_IsException (err : error) : bool := false.

Definition Echo_Echo_Helper_WrapResponse (success : option Pong)
  (err : option error) : option Echo_Echo_Result * option error :=
  match err with
  | None => (Some {| Success := success |}, None)
  | Some e => (None, Some e)
  end.

Definition Echo_Echo_Helper_UnwrapResponse (result : Echo_Echo_Result)
  : option Pong * option error :=
  match Success result with
  | Some s => (Some s, None)
  | None => (None, Some (errorString "expected a non-void result"))
  end.

End Echo.

Arguments Echo_Echo_Args : clear implicits.
Arguments Echo_Echo_Result : clear implicits.

(** What the generated code relies on in the codec of a struct type: a
    value [ToWire] gives without error is a struct value that [FromWire]
    reads back; and [Equals] tells whether two structs are the same. *)
Definition wire_round_trip (T : Type) `{!wireStruct T} : Prop :=
  ∀ (p : T) w, ToWire p = (w, None) →
               is_TStruct w = true ∧ FromWire w = (p, None).

Definition Equals_decides (T : Type) `{!wireStruct T} : Prop :=
  ∀ p q : T, Equals p q = true ↔ p = q.

(** ** Sample inputs *)

(** A transport on which every operation succeeds, and one on which the
    fourth operation (closing the body stream, after a first [Write]) fails. *)
Definition healthy : inboundCallResponse := mkResponse [] [].

Definition connection_reset : error := errorString "connection reset".

Definition fails_on_close : inboundCallResponse :=
  mkResponse [] [None; None; None; Some (Fault connection_reset 0)].

(** A transport on which the first operation (the header flush) fails. *)
Definition fails_on_flush : inboundCallResponse :=
  mkResponse [] [Some (Fault connection_reset 0)].

Definition hi : bytes := ["h"%byte; "i"%byte].
Definition foo_bar : Headers := {[ "foo" := "bar" ]}.
Definition x_y : Headers := {[ "x" := "y" ]}.

(** A writer on which [AddHeaders({foo: bar})] was called and nothing else. *)
Definition foo_bar_writer (r : inboundCallResponse) : responseWriter :=
  (AddHeaders foo_bar (newResponseWriter "raw" r)).2.

(** The call of the spec's TChannel scenario: format raw, arg2 headers
    [{k: v}], arg3 bytes [hello]; a context with a deadline and one without;
    the handler of [TestHandlerPanic]; a handler that returns a system error
    of class bad request; and one that adds a header and writes [world]. *)
Definition hello : bytes := ["h"%byte; "e"%byte; "l"%byte; "l"%byte; "o"%byte].
Definition world : bytes := ["w"%byte; "o"%byte; "r"%byte; "l"%byte; "d"%byte].

Definition sample_call : inboundCall :=
  {| ServiceName := "curly"; CallerName := "moe"; MethodString := "nyuck";
     Format := "raw";
     Arg2Reader := inr (λ _, inr {[ "k" := "v" ]});
     Arg3Reader := inr hello;
     Response := healthy |}.

Definition with_deadline : Context := mkContext (Some 1000000000%Z).
Definition without_deadline : Context := mkContext None.

Definition panickedHandler (ctx : Context) (req : Request) : handler_prog :=
  Panic "oops I panicked!".

Definition bad_request : error := SystemError ErrCodeBadRequest "bad request".

Definition failingHandler (ctx : Context) (req : Request) : handler_prog :=
  Return (Some bad_request).

Definition worldHandler (ctx : Context) (req : Request) : handler_prog :=
  DoAddHeaders {[ "a" := "b" ]} (λ _, DoWrite world (λ _ err, Return err)).

(** The request headers of the first case of [TestHandlerHeaders] and the
    response headers a handler's user headers are added to. *)
Definition give_headers : httpHeader :=
  {[ "Context-Ttl-Ms" := "1000"; "Rpc-Header-Foo" := "bar"; "X-Baz" := "bat" ]}.



Definition headersOnlyHandler (ctx : Context) (req : Request) : handler_prog :=
  DoAddHeaders foo_bar (λ _, Return None).

Definition expired : Context := mkContext (Some (-1000000000)%Z).


(** A struct type to run the generated code on: one string field, with
    the ID 1, required. *)
Record beep := mkBeep { Beep : string }.

Definition beep_FromWire_fields (fields : list (Z * wire_Value)) : option string :=
  foldl (λ acc f,
           match f with
           | (1%Z, NewValueBinary b) => Some (string_of_list_byte b)
           | _ => acc
           end) None fields.

#[global] Instance beep_wireStruct : wireStruct beep := {|
  ToWire p :=
    (NewValueStruct [(1%Z, NewValueBinary (list_byte_of_string (Beep p)))],
     None);
  FromWire w :=
    match beep_FromWire_fields (GetStruct w) with
    | Some s => (mkBeep s, None)
    | None => (mkBeep "", Some (errorString "field Beep of Ping is required"))
    end;
  Equals p q := bool_decide (Beep p = Beep q);
|}.

(** * Properties *)

(** ** Reading the log *)

Lemma flushed_app (l l' : list event) :
  flushed (l ++ l') = flushed l || flushed l'.
Proof. apply existsb_app. Qed.

Lemma headers_before_body_flushed (l es : list event) :
  headers_before_body l = true → flushed l = true →
  headers_before_body (l ++ es) = true.
Proof.
  induction l as [|e l IH]; simpl; [discriminate|].
  destruct (is_flush e); simpl; [done|].
  intros [-> Hl]%andb_prop Hf. by rewrite IH.
Qed.

Lemma headers_before_body_flush (l es : list event) f h :
  headers_before_body l = true →
  headers_before_body (l ++ Arg2Written f h :: es) = true.
Proof.
  induction l as [|e l IH]; simpl; [done|].
  destruct (is_flush e); simpl; [done|].
  intros [-> Hl]%andb_prop. by rewrite IH.
Qed.

Lemma headers_before_body_skip (l1 l2 : list event) e :
  is_flush e = false → is_body e = false →
  headers_before_body (l1 ++ e :: l2) = headers_before_body (l1 ++ l2).
Proof.
  intros Hf Hb. induction l1 as [|a l1 IH]; simpl.
  - by rewrite Hf, Hb.
  - by rewrite IH.
Qed.

(** ** The writer invariant *)

Lemma writer_inv_new f r : writer_inv (log r) (newResponseWriter f r) [].
Proof.
  split; simpl; try done. by rewrite app_nil_r.
Qed.

Ltac writer_unfold :=
  unfold Write, Write_open, Write_body, Close, AddHeaders, writeHeaders,
    Arg3Writer, ArgWriter_Write, ArgWriter_Close, next_outcome, record,
    set_failedWith, set_response, set_bodyWriter, set_wroteHeaders,
    set_headers in *;
  simpl in *.

(** Closes the goal [∃ es, writer_inv base rw' (added ++ es)] once [rw'] is
    explicit, trying the possible lengths of [es]. *)
Ltac writer_inv_flushed :=
  rewrite flushed_app; simpl;
  try match goal with H : flushed _ = true |- _ => rewrite H end;
  rewrite ?orb_true_r; by auto.

Ltac writer_inv_fields Hlog :=
  split; simpl;
  [ rewrite Hlog, <- ?app_assoc; simpl; rewrite ?app_nil_r; reflexivity
  | first [ done | apply Forall_app; split; [done | by repeat constructor] ]
  | first [ by rewrite ?app_nil_r
          | by apply headers_before_body_flushed
          | by apply headers_before_body_flush ]
  | intros; first [ done | writer_inv_flushed ]
  | intros; first [ done | writer_inv_flushed ]
  | intros; first [ done | by auto ]
  | intros; first [ done | by eauto ] ].

Ltac writer_inv_close Hlog :=
  first [ exists []; writer_inv_fields Hlog
        | eexists [_]; writer_inv_fields Hlog
        | eexists [_; _]; writer_inv_fields Hlog
        | eexists [_; _; _]; writer_inv_fields Hlog ].

Lemma writer_inv_Write base rw added s :
  writer_inv base rw added →
  ∃ es, writer_inv base (Write s rw).2 (added ++ es).
Proof.
  intros [Hlog Honly Hord Hfl Hbfl Hopen Hbody].
  destruct rw as [fw bw f hs [lg sc] wh]; simpl in *.
  writer_unfold.
  destruct fw as [e|]; simpl.
  { exists []. rewrite app_nil_r. by split. }
  destruct wh; simpl.
  - destruct (Hbody eq_refl eq_refl) as [w ->].
    specialize (Hfl eq_refl eq_refl).
    destruct sc as [|[ft|] sc]; simpl; writer_inv_close Hlog.
  - destruct (Hopen eq_refl) as [-> _].
    destruct sc as [|[ft|] [|[ft2|] [|[ft3|] sc]]]; simpl;
      writer_inv_close Hlog.
Qed.

Lemma writer_inv_AddHeaders base rw added h :
  writer_inv base rw added →
  writer_inv base (AddHeaders h rw).2 added.
Proof.
  intros [Hlog Honly Hord Hfl Hbfl Hopen Hbody].
  unfold AddHeaders. destruct (wroteHeaders rw) eqn:Hwh; simpl.
  - split; auto; congruence.
  - split; simpl; rewrite ?Hwh; auto.
Qed.

Lemma writer_inv_Close base rw added :
  writer_inv base rw added →
  ∃ es, writer_inv base (Close rw).2 (added ++ es).
Proof.
  intros [Hlog Honly Hord Hfl Hbfl Hopen Hbody].
  destruct rw as [fw bw f hs [lg sc] wh]; simpl in *.
  writer_unfold.
  destruct bw as [w|]; simpl.
  - assert (flushed added = true) as Hf by eauto.
    destruct sc as [|[ft|] sc], fw; simpl; writer_inv_close Hlog.
  - destruct fw; simpl; exists []; rewrite app_nil_r; by split.
Qed.

Lemma writer_inv_run_handler base p : ∀ rw added,
  writer_inv base rw added →
  ∃ es, writer_inv base (run_handler p rw).2 (added ++ es).
Proof.
  induction p as [err|v|h k IH|s k IH]; intros rw added Hinv; simpl.
  - exists []. by rewrite app_nil_r.
  - exists []. by rewrite app_nil_r.
  - pose proof (writer_inv_AddHeaders _ _ _ h Hinv) as H1.
    destruct (AddHeaders h rw) as [v rw1]. by apply IH.
  - destruct (writer_inv_Write _ _ _ s Hinv) as [es1 H1].
    destruct (Write s rw) as [[n err] rw1]; simpl in *.
    destruct (IH n err _ _ H1) as [es2 H2].
    exists (es1 ++ es2). by rewrite app_assoc.
Qed.

(** ** Write, step by step *)

Lemma Write_failed rw e s :
  failedWith rw = Some e → Write s rw = ((0, Some e), rw).
Proof. intros H. unfold Write. by rewrite H. Qed.

Lemma Write_first s rw n rw1 :
  Open rw → Write s rw = ((n, None), rw1) →
  n = length s ∧
  rw1 = {| failedWith := None; bodyWriter := Some arg3Writer;
           format := format rw; headers := headers rw;
           response :=
             {| log := log (response rw) ++
                       [Arg2Written (format rw) (headers rw);
                        Arg3WriterOpened; Arg3Written s];
                script := drop 3 (script (response rw)) |};
           wroteHeaders := true |}.
Proof.
  intros (Hf & Hw & Hb).
  destruct rw as [fw bw f hs [lg sc] wh]; simpl in *; subst.
  writer_unfold.
  destruct sc as [|[ft|] [|[ft2|] [|[ft3|] sc]]]; simpl;
    intros [= <- <-]; by rewrite <- ?app_assoc.
Qed.

Lemma Write_next s rw n rw1 :
  BodyOpen rw → Write s rw = ((n, None), rw1) →
  n = length s ∧
  rw1 = set_response
          {| log := log (response rw) ++ [Arg3Written s];
             script := drop 1 (script (response rw)) |} rw.
Proof.
  intros (Hf & Hw & [w Hb]).
  destruct rw as [fw bw f hs [lg sc] wh]; simpl in *; subst.
  writer_unfold.
  destruct sc as [|[ft|] sc]; simpl; by intros [= <- <-].
Qed.


Lemma Write_error_stored s rw n e rw1 :
  failedWith rw = None → Write s rw = ((n, Some e), rw1) →
  failedWith rw1 = Some e.
Proof.
  destruct rw as [fw bw f hs [lg sc] wh]; simpl in *. intros ->.
  writer_unfold.
  destruct wh, bw, sc as [|[ft|] [|[ft2|] [|[ft3|] sc]]]; simpl;
    by intros [= <- <- <-].
Qed.

Lemma Write_wroteHeaders s rw :
  failedWith rw = None → wroteHeaders (Write s rw).2 = true.
Proof.
  destruct rw as [fw bw f hs [lg sc] wh]; simpl in *. intros ->.
  writer_unfold.
  by destruct wh, bw, sc as [|[ft|] [|[ft2|] [|[ft3|] sc]]].
Qed.

Lemma Write_wroteHeaders_mono s rw :
  wroteHeaders rw = true → wroteHeaders (Write s rw).2 = true.
Proof.
  intros Hw. destruct (failedWith rw) as [e|] eqn:Hf.
  - by rewrite (Write_failed _ e).
  - by apply Write_wroteHeaders.
Qed.

Lemma AddHeaders_refused h rw :
  wroteHeaders rw = true → AddHeaders h rw = (Some AddHeaders_panic, rw).
Proof. intros H. unfold AddHeaders. by rewrite H. Qed.

Lemma AddHeaders_wroteHeaders h rw :
  wroteHeaders (AddHeaders h rw).2 = wroteHeaders rw.
Proof. unfold AddHeaders. by destruct (wroteHeaders rw) eqn:E. Qed.

Lemma run_handler_wroteHeaders p : ∀ rw,
  wroteHeaders rw = true → wroteHeaders (run_handler p rw).2 = true.
Proof.
  induction p as [err|v|h k IH|s k IH]; intros rw Hw; simpl; try done.
  - rewrite (AddHeaders_refused _ _ Hw). by apply IH.
  - pose proof (Write_wroteHeaders_mono s rw Hw) as H1.
    destruct (Write s rw) as [[n err] rw1]. by apply IH.
Qed.

(** A failed writer stays as it is, whatever the handler goes on to do. *)
Lemma run_handler_failed p : ∀ rw e,
  failedWith rw = Some e →
  failedWith (run_handler p rw).2 = Some e ∧
  response (run_handler p rw).2 = response rw.
Proof.
  induction p as [err|v|h k IH|s k IH]; intros rw e Hf; simpl; try done.
  - unfold AddHeaders. destruct (wroteHeaders rw); [by apply IH|].
    destruct (IH None (set_headers (merge_headers h (headers rw)) rw) e Hf)
      as [H1 H2]. by rewrite H1, H2.
  - rewrite (Write_failed _ e) by done. by apply IH.
Qed.

(** ** Merging headers *)

Lemma canonical_insert i x (m : Headers) :
  canonical (<[i:=x]> m) → ToLower i = i ∧ (m !! i = None → canonical m).
Proof.
  intros Hc. split.
  - apply Hc. rewrite lookup_insert_eq. by eexists.
  - intros Hi k [v Hk]. apply Hc. exists v.
    rewrite lookup_insert_ne; [done|]. intros ->. congruence.
Qed.

Lemma merge_headers_canonical (h p : Headers) :
  canonical h → merge_headers h p = h ∪ p.
Proof.
  unfold merge_headers.
  apply (map_fold_weak_ind (λ r m, canonical m → r = m ∪ p)).
  - intros _. by rewrite (left_id_L ∅ (∪)).
  - intros i x m r Hi IH Hc.
    destruct (canonical_insert _ _ _ Hc) as [Hl Hm].
    unfold Headers_Set. rewrite Hl, IH by auto.
    by rewrite insert_union_l.
Qed.





Lemma body_bytes_app l s :
  body_bytes (l ++ [Arg3Written s]) = body_bytes l ++ s.
Proof.
  unfold body_bytes. rewrite omap_app, concat_app. simpl.
  by rewrite app_nil_r.
Qed.

Lemma flushed_headers_app l l' :
  flushed_headers (l ++ l') = flushed_headers l ++ flushed_headers l'.
Proof. apply omap_app. Qed.

(** ** The response writer: the claims *)

Lemma body_bytes_first l f h :
  body_bytes (l ++ [Arg2Written f h; Arg3WriterOpened; Arg3Written []]) =
  body_bytes l.
Proof.
  unfold body_bytes. rewrite omap_app, concat_app. simpl.
  by rewrite app_nil_r.
Qed.

(** C10.  The first [Write] freezes the headers even when it is given no
    bytes: whatever the transport answers, every later [AddHeaders] is
    refused, also after anything else the handler does; and when the
    [Write] succeeds, the pending headers are on the wire and the body
    stream has been opened, with no byte in it. *)
Theorem Write_empty_freezes_headers rw :
  Open rw →
  (∀ p h, let rw2 := (run_handler p (Write [] rw).2).2 in
          AddHeaders h rw2 = (Some AddHeaders_panic, rw2)) ∧
  (∀ n rw1,
     Write [] rw = ((n, None), rw1) →
     log (response rw1) =
       log (response rw) ++
       [Arg2Written (format rw) (headers rw); Arg3WriterOpened; Arg3Written []] ∧
     body_bytes (log (response rw1)) = body_bytes (log (response rw))).
Proof.
  intros Hopen. split.
  - intros p h rw2. apply AddHeaders_refused.
    apply run_handler_wroteHeaders, Write_wroteHeaders, Hopen.
  - intros n rw1 Hw. destruct (Write_first _ _ _ _ Hopen Hw) as [_ ->].
    simpl. by rewrite body_bytes_first.
Qed.

Lemma Write_empty_freezes_headers_witness :
  AddHeaders x_y (Write [] (foo_bar_writer healthy)).2 =
    (Some AddHeaders_panic, (Write [] (foo_bar_writer healthy)).2) ∧
  log (response (Write [] (foo_bar_writer healthy)).2) =
    [Arg2Written "raw" foo_bar; Arg3WriterOpened; Arg3Written []].
Proof.
  assert (Open (foo_bar_writer healthy)) as Hopen by (repeat split).
  destruct (Write_empty_freezes_headers _ Hopen) as [H1 H2]. split.
  - apply (H1 (Return None) x_y).
  - destruct (H2 0 (Write [] (foo_bar_writer healthy)).2) as [H3 _].
    + vm_compute. reflexivity.
    + rewrite H3. vm_compute. reflexivity.
Defined.

Lemma Close_Open rw : Open rw → Close rw = (None, rw).
Proof. intros (Hf & _ & Hb). unfold Close. by rewrite Hb, Hf. Qed.

Lemma Close_BodyOpen rw :
  BodyOpen rw →
  Close rw = ((ArgWriter_Close (response rw)).1,
              set_response (ArgWriter_Close (response rw)).2 rw).
Proof.
  intros (Hf & _ & [w Hb]). unfold Close. rewrite Hb.
  destruct (ArgWriter_Close (response rw)) as [e r]. simpl. by rewrite Hf.
Qed.

Lemma ArgWriter_Close_log r :
  (ArgWriter_Close r).1 = None →
  log (ArgWriter_Close r).2 = log r ++ [Arg3WriterClosed].
Proof.
  destruct r as [lg sc]. unfold ArgWriter_Close, next_outcome; simpl.
  by destruct sc as [|[ft|] sc].
Qed.


(** Between two calls, a writer that has not failed is Open when no [Write]
    was made and has its body open otherwise. *)
Lemma writer_inv_states base rw added :
  writer_inv base rw added → failedWith rw = None →
  (wroteHeaders rw = false ∧ Open rw) ∨ (wroteHeaders rw = true ∧ BodyOpen rw).
Proof.
  intros Hinv Hf. destruct (wroteHeaders rw) eqn:Hw.
  - right. split; [done|]. repeat split; try done.
    by apply (inv_body _ _ _ Hinv).
  - left. split; [done|]. repeat split; try done.
    by apply (inv_open _ _ _ Hinv).
Qed.



(** C2, as the code has it.  [Close] on an Open writer (no [Write] was
    made) calls nothing on the transport and returns nil; on a writer whose
    body is open it closes the body stream and returns what that gives.
    These are the only two states a handler can leave a writer in without
    it having failed. *)
Theorem Close_closes_only_an_open_body rw :
  (Open rw → Close rw = (None, rw)) ∧
  (BodyOpen rw →
   Close rw = ((ArgWriter_Close (response rw)).1,
               set_response (ArgWriter_Close (response rw)).2 rw) ∧
   ((ArgWriter_Close (response rw)).1 = None →
    log (response (Close rw).2) = log (response rw) ++ [Arg3WriterClosed])) ∧
  (∀ f r p,
     rw = (run_handler p (newResponseWriter f r)).2 →
     failedWith rw = None →
     (wroteHeaders rw = false ∧ Open rw) ∨ (wroteHeaders rw = true ∧ BodyOpen rw)).
Proof.
  split; [apply Close_Open|]. split.
  - intros Hbo. split; [by apply Close_BodyOpen|].
    intros Hc. rewrite (Close_BodyOpen _ Hbo); simpl.
    by apply ArgWriter_Close_log.
  - intros f r p -> Hf.
    destruct (writer_inv_run_handler (log r) p _ _ (writer_inv_new f r))
      as [es Hinv].
    by apply (writer_inv_states _ _ _ Hinv).
Qed.

Lemma Close_closes_only_an_open_body_witness :
  Close (foo_bar_writer healthy) = (None, foo_bar_writer healthy) ∧
  log (response (Close (Write hi (foo_bar_writer healthy)).2).2) =
    [Arg2Written "raw" foo_bar; Arg3WriterOpened; Arg3Written hi;
     Arg3WriterClosed].
Proof.
  split.
  - apply (proj1 (Close_closes_only_an_open_body (foo_bar_writer healthy))).
    repeat split.
  - destruct (Close_closes_only_an_open_body
                (Write hi (foo_bar_writer healthy)).2) as (_ & H & _).
    destruct H as [_ H].
    + repeat split. vm_compute. eexists. reflexivity.
    + rewrite H; vm_compute; reflexivity.
Defined.

(** C2 fails as stated: headers were added, no [Write] was made, and
    [Close] leaves the wire empty: the pending headers are not flushed and
    no body is opened. *)
Lemma Close_without_Write_sends_nothing :
  Open (foo_bar_writer healthy) ∧
  headers (foo_bar_writer healthy) = foo_bar ∧
  (Close (foo_bar_writer healthy)).1 = None ∧
  log (response (Close (foo_bar_writer healthy)).2) = [] ∧
  ¬ (∃ f h, Arg2Written f h ∈ log (response (Close (foo_bar_writer healthy)).2)).
Proof.
  split; [repeat split|]. split; [vm_compute; reflexivity|].
  split; [reflexivity|]. split; [reflexivity|].
  intros (f & h & Hin). vm_compute in Hin. by apply elem_of_nil in Hin.
Qed.

Lemma Close_result rw :
  (Close rw).1 =
    match failedWith rw with
    | Some e => Some e
    | None =>
        match bodyWriter rw with
        | Some _ => (ArgWriter_Close (response rw)).1
        | None => None
        end
    end.
Proof.
  unfold Close. destruct (bodyWriter rw); simpl.
  - destruct (ArgWriter_Close (response rw)) as [e r]; simpl.
    by destruct (failedWith rw).
  - by destruct (failedWith rw).
Qed.

Lemma Close_failedWith rw : failedWith (Close rw).2 = failedWith rw.
Proof.
  unfold Close. destruct (bodyWriter rw); simpl.
  - destruct (ArgWriter_Close (response rw)) as [e r]; simpl.
    by destruct (failedWith rw) eqn:Hf.
  - by destruct (failedWith rw) eqn:Hf.
Qed.

(** C5, as the code has it.  An error returned by a [Write] on a writer that
    had not failed is stored in [failedWith].  On a failed writer every
    [Write] returns the stored error and leaves the writer and the transport
    as they are, whatever the handler goes on to do, and [Close] returns the
    stored error.  On a writer that has not failed, [Close] returns what
    closing the body stream gives when the body is open, and nil when it is
    not. *)
Theorem Write_error_is_sticky rw s :
  (∀ n e rw1,
     failedWith rw = None → Write s rw = ((n, Some e), rw1) →
     failedWith rw1 = Some e) ∧
  (∀ e,
     failedWith rw = Some e →
     Write s rw = ((0, Some e), rw) ∧
     (∀ p, failedWith (run_handler p rw).2 = Some e ∧
           response (run_handler p rw).2 = response rw) ∧
     (Close rw).1 = Some e ∧
     failedWith (Close rw).2 = Some e) ∧
  (failedWith rw = None →
   (Close rw).1 =
     match bodyWriter rw with
     | Some _ => (ArgWriter_Close (response rw)).1
     | None => None
     end).
Proof.
  split; [|split].
  - intros n e rw1 Hf Hw. by apply (Write_error_stored s rw n).
  - intros e Hf. split; [by apply Write_failed|]. split; [|split].
    + intros p. by apply run_handler_failed.
    + by rewrite Close_result, Hf.
    + by rewrite Close_failedWith.
  - intros Hf. by rewrite Close_result, Hf.
Qed.

Lemma Write_error_is_sticky_witness :
  failedWith (Write hi (foo_bar_writer fails_on_flush)).2 =
    Some connection_reset ∧
  Write hi (Write hi (foo_bar_writer fails_on_flush)).2 =
    ((0, Some connection_reset), (Write hi (foo_bar_writer fails_on_flush)).2) ∧
  (Close (Write hi (foo_bar_writer fails_on_flush)).2).1 =
    Some connection_reset ∧
  (Close (foo_bar_writer fails_on_flush)).1 = None.
Proof.
  assert (failedWith (Write hi (foo_bar_writer fails_on_flush)).2 =
          Some connection_reset) as Hf.
  { apply (proj1 (Write_error_is_sticky (foo_bar_writer fails_on_flush) hi)
             0 connection_reset (Write hi (foo_bar_writer fails_on_flush)).2).
    - reflexivity.
    - vm_compute. reflexivity. }
  split; [exact Hf|].
  destruct (Write_error_is_sticky
              (Write hi (foo_bar_writer fails_on_flush)).2 hi) as (_ & H & _).
  destruct (H connection_reset Hf) as (H1 & _ & H2 & _).
  split; [exact H1|]. split; [exact H2|].
  rewrite (proj2 (proj2 (Write_error_is_sticky
                           (foo_bar_writer fails_on_flush) hi)));
    reflexivity.
Defined.

(** C5 fails as stated: a [Write] succeeded, so no error is stored, and yet
    [Close] returns an error, the one closing the body stream gave, which is
    not stored either. *)
Lemma Close_returns_an_error_never_stored :
  (Write hi (foo_bar_writer fails_on_close)).1 = (2, None) ∧
  failedWith (Write hi (foo_bar_writer fails_on_close)).2 = None ∧
  (Close (Write hi (foo_bar_writer fails_on_close)).2).1 =
    Some connection_reset ∧
  failedWith (Close (Write hi (foo_bar_writer fails_on_close)).2).2 = None.
Proof. vm_compute. auto. Qed.

(** ** The dispatcher *)

Lemma system_errors_app l l' :
  system_errors (l ++ l') = system_errors l ++ system_errors l'.
Proof. apply omap_app. Qed.

Lemma handled_app l l' : handled (l ++ l') = handled l ++ handled l'.
Proof. apply omap_app. Qed.

(** The events of the response writer are neither system errors nor
    invocations of the handler. *)
Lemma frame_events_silent es :
  Forall (λ e, is_flush e || is_body e = true) es →
  system_errors es = [] ∧ handled es = [].
Proof.
  induction 1 as [|e es He _ [IH1 IH2]]; [done|].
  destruct e; simpl in *; try discriminate; by rewrite ?IH1, ?IH2.
Qed.

Lemma Close_log rw :
  ∃ es, log (response (Close rw).2) = log (response rw) ++ es ∧
        Forall (λ e, is_flush e || is_body e = true) es.
Proof.
  destruct rw as [fw bw f hs [lg sc] wh]. writer_unfold.
  destruct bw, sc as [|[ft|] sc], fw; simpl;
    first [ by exists []; rewrite app_nil_r
          | by exists [Arg3WriterClosed]; split; [|repeat constructor] ].
Qed.

Lemma run_handler_log p f r :
  ∃ es, log (response (run_handler p (newResponseWriter f r)).2) = log r ++ es ∧
        Forall (λ e, is_flush e || is_body e = true) es.
Proof.
  destruct (writer_inv_run_handler (log r) p _ _ (writer_inv_new f r))
    as [es Hinv].
  exists ([] ++ es). split; apply Hinv.
Qed.

(** What [handle] does with a call it accepts. *)
Lemma handle_accepted h ctx now call d hs body :
  Deadline ctx = Some d →
  readHeaders (Format call) (Arg2Reader call) = inr hs →
  Arg3Reader call = inr body →
  handle h ctx now call =
    let treq := treq_of call hs body d now in
    let res := (run_handler (h ctx treq) (rw_of call treq)).1 in
    let rw1 := (run_handler (h ctx treq) (rw_of call treq)).2 in
    let rw2 :=
      match res with
      | Returned (Some err) =>
          set_response
            (SendSystemError
               (NewSystemError ErrCodeUnexpected "internal error: %v" err)
               (response rw1)) rw1
      | _ => rw1
      end in
    (match res with Returned _ => Returned () | Panicked v => Panicked v end,
     record RequestBodyClosed (response (Close rw2).2)).
Proof.
  intros Hd Hh Hb. unfold handle. rewrite Hd, Hh, Hb.
  fold (treq_of call hs body d now).
  set (treq := treq_of call hs body d now).
  change (set_response _ _) with (rw_of call treq) at 1.
  destruct (run_handler (h ctx treq) (rw_of call treq)) as [res rw1]; simpl.
  destruct res as [[err|]|v]; simpl;
    match goal with |- context [Close ?x] => by destruct (Close x) end.
Qed.

(** Closing a writer whose response meanwhile took a system error: what
    [Close] adds still comes after the header flush. *)
Lemma Close_after base rw added r' :
  writer_inv base rw added →
  script r' = script (response rw) →
  ∃ es, log (response (Close (set_response r' rw)).2) = log r' ++ es ∧
        Forall (λ e, is_flush e || is_body e = true) es ∧
        headers_before_body (added ++ es) = true.
Proof.
  intros [Hlog Honly Hord Hfl Hbfl Hopen Hbody] Hs.
  destruct rw as [fw bw f hs [lg sc] wh], r' as [lg' sc'].
  simpl in *. subst sc'. writer_unfold.
  destruct bw as [w|]; simpl.
  - assert (flushed added = true) as Hf by eauto.
    destruct sc as [|[ft|] sc], fw; simpl;
      first [ by exists []; rewrite !app_nil_r
            | exists [Arg3WriterClosed]; split; [done|];
              split; [by repeat constructor|];
              by apply headers_before_body_flushed ].
  - destruct fw; simpl; by exists []; rewrite !app_nil_r.
Qed.

(** The log of an accepted call: the two argument readers, the handler, what
    the handler put on the wire, the system error if the handler returned an
    error, what closing the writer put on the wire, the request body closed. *)
Lemma handle_log h ctx now call d hs body :
  Deadline ctx = Some d →
  readHeaders (Format call) (Arg2Reader call) = inr hs →
  Arg3Reader call = inr body →
  ∃ es1 es2,
    Forall (λ e, is_flush e || is_body e = true) es1 ∧
    Forall (λ e, is_flush e || is_body e = true) es2 ∧
    headers_before_body (es1 ++ es2) = true ∧
    log (handle h ctx now call).2 =
      log (Response call) ++
      [Arg2ReaderCalled; Arg3ReaderCalled;
       HandleInvoked (treq_of call hs body d now)] ++
      es1 ++
      sent_after (run_handler (h ctx (treq_of call hs body d now))
                    (rw_of call (treq_of call hs body d now))).1 ++
      es2 ++ [RequestBodyClosed].
Proof.
  intros Hd Hh Hb. rewrite (handle_accepted _ _ _ _ _ _ _ Hd Hh Hb).
  cbv zeta. set (treq := treq_of call hs body d now).
  destruct (writer_inv_run_handler _ (h ctx treq) _ _
              (writer_inv_new (Format call)
                 (record (HandleInvoked treq)
                    (record Arg3ReaderCalled
                       (record Arg2ReaderCalled (Response call))))))
    as (es1 & Hinv).
  fold (rw_of call treq) in Hinv. simpl in Hinv.
  pose proof (inv_log _ _ _ Hinv) as Hlog.
  pose proof (inv_only _ _ _ Hinv) as Hes1.
  destruct (run_handler (h ctx treq) (rw_of call treq)) as [res rw1].
  simpl in *.
  assert (∀ r', script r' = script (response rw1) →
            ∃ es2, log (response (Close (set_response r' rw1)).2) =
                     log r' ++ es2 ∧
                   Forall (λ e, is_flush e || is_body e = true) es2 ∧
                   headers_before_body (es1 ++ es2) = true) as Hclose.
  { intros r' Hs. by apply (Close_after _ _ _ _ Hinv). }
  assert (set_response (response rw1) rw1 = rw1) as Heta by by destruct rw1.
  destruct res as [[err|]|v]; simpl.
  - destruct (Hclose (SendSystemError
                        (NewSystemError ErrCodeUnexpected "internal error: %v" err)
                        (response rw1)) eq_refl) as (es2 & Hc & Hes2 & Hord).
    exists es1, es2. repeat (split; [done|]).
    rewrite Hc. unfold SendSystemError, record; simpl.
    by rewrite Hlog, <- !app_assoc.
  - destruct (Hclose (response rw1) eq_refl) as (es2 & Hc & Hes2 & Hord).
    rewrite Heta in Hc.
    exists es1, es2. repeat (split; [done|]).
    by rewrite Hc, Hlog, <- !app_assoc.
  - destruct (Hclose (response rw1) eq_refl) as (es2 & Hc & Hes2 & Hord).
    rewrite Heta in Hc.
    exists es1, es2. repeat (split; [done|]).
    by rewrite Hc, Hlog, <- !app_assoc.
Qed.

(** Whatever the call, the handler and the transport do, no event of the
    body stream comes before the header flush in what [handle] logs. *)
Lemma handle_headers_before_body h ctx now call :
  ∃ added,
    log (handle h ctx now call).2 = log (Response call) ++ added ∧
    headers_before_body added = true.
Proof.
  destruct (Deadline ctx) as [d|] eqn:Hd.
  - destruct (readHeaders (Format call) (Arg2Reader call)) as [e|hs] eqn:Hh.
    { unfold handle. rewrite Hd, Hh. eexists. split; simpl.
      - rewrite <- !app_assoc. reflexivity.
      - reflexivity. }
    destruct (Arg3Reader call) as [e|body] eqn:Hb.
    { unfold handle. rewrite Hd, Hh, Hb. eexists. split; simpl.
      - rewrite <- !app_assoc. reflexivity.
      - reflexivity. }
    destruct (handle_log h _ now _ _ _ _ Hd Hh Hb)
      as (es1 & es2 & H1 & H2 & Hord & ->).
    eexists. split; [reflexivity|]. simpl.
    assert (headers_before_body (es1 ++ es2 ++ [RequestBodyClosed]) = true)
      as Hend.
    { rewrite app_assoc, headers_before_body_skip by done.
      by rewrite app_nil_r. }
    destruct (run_handler _ _).1 as [[err|]|v]; simpl; try done.
    by rewrite headers_before_body_skip.
  - unfold handle. rewrite Hd. eexists. split; reflexivity.
Qed.

(** C4.  A [Write] that succeeds on a writer still in the Open state puts
    the pending headers on the wire, then opens the body stream, then writes
    the bytes, in this order; one that succeeds on a writer whose body is
    open only appends the bytes to the body.  Whatever a handler does with
    the writer and whatever the transport answers, once the writer is closed
    no event of the body stream comes before the header flush in what the
    writer put on the wire; the same holds of everything [handle] logs for
    a call. *)
Theorem Write_headers_before_body :
  (∀ s rw n rw1,
     Write s rw = ((n, None), rw1) →
     (Open rw →
      log (response rw1) =
        log (response rw) ++
        [Arg2Written (format rw) (headers rw); Arg3WriterOpened; Arg3Written s]) ∧
     (BodyOpen rw →
      log (response rw1) = log (response rw) ++ [Arg3Written s] ∧
      body_bytes (log (response rw1)) = body_bytes (log (response rw)) ++ s)) ∧
  (∀ f r p, ∃ added,
     log (response (Close (run_handler p (newResponseWriter f r)).2).2) =
       log r ++ added ∧
     headers_before_body added = true) ∧
  (∀ h ctx now call, ∃ added,
     log (handle h ctx now call).2 = log (Response call) ++ added ∧
     headers_before_body added = true).
Proof.
  split; [|split; [|apply handle_headers_before_body]].
  - intros s rw n rw1 Hw. split; intros Hst.
    + by destruct (Write_first _ _ _ _ Hst Hw) as [_ ->].
    + destruct (Write_next _ _ _ _ Hst Hw) as [_ ->]. simpl.
      by rewrite body_bytes_app.
  - intros f r p.
    destruct (writer_inv_run_handler (log r) p _ _ (writer_inv_new f r))
      as [es1 H1].
    destruct (writer_inv_Close _ _ _ H1) as [es2 H2].
    exists (([] ++ es1) ++ es2). split; [apply H2|apply H2].
Qed.

Lemma Write_headers_before_body_witness :
  log (response (Write hi (foo_bar_writer healthy)).2) =
    [Arg2Written "raw" foo_bar; Arg3WriterOpened; Arg3Written hi].
Proof.
  destruct Write_headers_before_body as (H & _ & _).
  destruct (H hi (foo_bar_writer healthy) 2
              (Write hi (foo_bar_writer healthy)).2) as [H1 _].
  - vm_compute. reflexivity.
  - rewrite H1.
    + vm_compute. reflexivity.
    + repeat split.
Defined.

(** C6.  When the context carries no deadline, [handle] sends
    [ErrTimeoutRequired] and returns: this is the only thing it does to the
    call, so no argument reader is opened and the handler is not invoked. *)
Theorem handle_without_deadline h ctx now call :
  Deadline ctx = None →
  handle h ctx now call =
    (Returned (), SendSystemError ErrTimeoutRequired (Response call)) ∧
  log (handle h ctx now call).2 =
    log (Response call) ++ [SystemErrorSent ErrTimeoutRequired] ∧
  handled (log (handle h ctx now call).2) = handled (log (Response call)).
Proof.
  intros Hd. unfold handle. rewrite Hd. simpl.
  split; [done|]. split; [done|].
  rewrite handled_app; simpl. by rewrite app_nil_r.
Qed.

Lemma handle_without_deadline_witness :
  log (handle worldHandler without_deadline 0 sample_call).2 =
    [SystemErrorSent ErrTimeoutRequired].
Proof.
  destruct (handle_without_deadline worldHandler without_deadline 0
              sample_call) as (_ & H & _).
  - reflexivity.
  - rewrite H. reflexivity.
Defined.

(** C8.  For a call it accepts (the context has a deadline and both
    argument readers open), [handle] invokes the handler once, with a
    request whose caller, service, procedure and encoding are the call's
    [CallerName], [ServiceName], [MethodString] and [Format], whose headers
    are those read from arg2 through [Arg2Reader] and whose body is the
    reader obtained from [Arg3Reader]. *)
Theorem handle_builds_request h ctx now call d hs body :
  Deadline ctx = Some d →
  readHeaders (Format call) (Arg2Reader call) = inr hs →
  Arg3Reader call = inr body →
  ∃ req,
    handled (log (handle h ctx now call).2) =
      handled (log (Response call)) ++ [req] ∧
    (handle h ctx now call).1 =
      match (run_handler (h ctx req) (rw_of call req)).1 with
      | Returned _ => Returned ()
      | Panicked v => Panicked v
      end ∧
    Caller req = CallerName call ∧
    Service req = ServiceName call ∧
    Procedure req = MethodString call ∧
    Encoding req = Format call ∧
    (∃ frame, Arg2Reader call = inr frame ∧ frame (Format call) = inr hs ∧
              ReqHeaders req = hs) ∧
    Body req = body ∧
    TTL req = Time_Sub d now.
Proof.
  intros Hd Hh Hb. exists (treq_of call hs body d now).
  split; [|split].
  - destruct (handle_log h _ now _ _ _ _ Hd Hh Hb)
      as (es1 & es2 & H1 & H2 & _ & ->).
    rewrite !handled_app.
    rewrite (proj2 (frame_events_silent _ H1)).
    rewrite (proj2 (frame_events_silent _ H2)).
    simpl. destruct (run_handler _ _).1 as [[err|]|v]; done.
  - by rewrite (handle_accepted _ _ _ _ _ _ _ Hd Hh Hb).
  - repeat split; try done.
    unfold readHeaders in Hh. destruct (Arg2Reader call) as [e|frame];
      [discriminate|]. by exists frame.
Qed.

Lemma handle_builds_request_witness :
  handled (log (handle worldHandler with_deadline 0 sample_call).2) =
    [{| Caller := "moe"; Service := "curly"; Encoding := "raw";
        Procedure := "nyuck"; ReqHeaders := {[ "k" := "v" ]}; Body := hello;
        TTL := 1000000000 |}].
Proof.
  destruct (handle_builds_request worldHandler with_deadline 0 sample_call
              1000000000 {[ "k" := "v" ]} hello)
    as (req & H & _ & Hc & Hs & Hp & He & (frame & _ & _ & Hh) & Hbd & Ht);
    [reflexivity..|].
  rewrite H. destruct req; simpl in *; subst. vm_compute. reflexivity.
Defined.

(** The system errors of an accepted call: none while the handler runs and
    none from closing the writer. *)
Lemma handle_system_errors h ctx now call d hs body :
  Deadline ctx = Some d →
  readHeaders (Format call) (Arg2Reader call) = inr hs →
  Arg3Reader call = inr body →
  system_errors (log (handle h ctx now call).2) =
    system_errors (log (Response call)) ++
    system_errors
      (sent_after (run_handler (h ctx (treq_of call hs body d now))
                     (rw_of call (treq_of call hs body d now))).1).
Proof.
  intros Hd Hh Hb.
  destruct (handle_log h _ now _ _ _ _ Hd Hh Hb)
    as (es1 & es2 & H1 & H2 & _ & ->).
  rewrite !system_errors_app.
  rewrite (proj1 (frame_events_silent _ H1)).
  rewrite (proj1 (frame_events_silent _ H2)).
  simpl. by rewrite app_nil_r.
Qed.

(** C7, as the code has it.  When [Handle] returns an error on an accepted
    call, the one system error [handle] sends is built with
    [ErrCodeUnexpected] and the format [internal error: %v] around that
    error, whatever the error is. *)
Theorem handle_error_is_sent_as_unexpected h ctx now call d hs body err rw1 :
  Deadline ctx = Some d →
  readHeaders (Format call) (Arg2Reader call) = inr hs →
  Arg3Reader call = inr body →
  run_handler (h ctx (treq_of call hs body d now))
    (rw_of call (treq_of call hs body d now)) = (Returned (Some err), rw1) →
  system_errors (log (handle h ctx now call).2) =
    system_errors (log (Response call)) ++
    [NewSystemError ErrCodeUnexpected "internal error: %v" err] ∧
  GetSystemErrorCode
    (NewSystemError ErrCodeUnexpected "internal error: %v" err) =
    ErrCodeUnexpected.
Proof.
  intros Hd Hh Hb Hrun. split; [|done].
  rewrite (handle_system_errors _ _ _ _ _ _ _ Hd Hh Hb), Hrun. done.
Qed.

Lemma handle_error_is_sent_as_unexpected_witness :
  system_errors (log (handle failingHandler with_deadline 0 sample_call).2) =
    [SystemErrorf ErrCodeUnexpected "internal error: %v" bad_request].
Proof.
  destruct (handle_error_is_sent_as_unexpected failingHandler with_deadline 0
              sample_call 1000000000 {[ "k" := "v" ]} hello bad_request
              (rw_of sample_call
                 (treq_of sample_call {[ "k" := "v" ]} hello 1000000000 0)))
    as [H _]; [reflexivity..|].
  rewrite H. reflexivity.
Defined.

(** C7 fails as stated: the handler returns a system error whose code is
    [ErrCodeBadRequest], and the one system error sent has the code
    [ErrCodeUnexpected]. *)
Lemma handle_sends_unexpected_for_a_bad_request :
  GetSystemErrorCode bad_request = ErrCodeBadRequest ∧
  (run_handler
     (failingHandler with_deadline
        (treq_of sample_call {[ "k" := "v" ]} hello 1000000000 0))
     (rw_of sample_call
        (treq_of sample_call {[ "k" := "v" ]} hello 1000000000 0))).1 =
    Returned (Some bad_request) ∧
  map GetSystemErrorCode
    (system_errors
       (log (handle failingHandler with_deadline 0 sample_call).2)) =
    [ErrCodeUnexpected] ∧
  ¬ (∃ e,
       e ∈ system_errors
             (log (handle failingHandler with_deadline 0 sample_call).2) ∧
       GetSystemErrorCode e = GetSystemErrorCode bad_request).
Proof.
  split; [reflexivity|]. split; [reflexivity|]. split; [reflexivity|].
  intros (e & Hin & He).
  change (system_errors
            (log (handle failingHandler with_deadline 0 sample_call).2))
    with [SystemErrorf ErrCodeUnexpected "internal error: %v" bad_request]
    in Hin.
  apply list_elem_of_singleton in Hin as ->. discriminate.
Qed.

(** A handler that panics on an accepted call: [handle] panics with the
    same value and sends no system error. *)
Lemma handle_panic h ctx now call d hs body v rw1 :
  Deadline ctx = Some d →
  readHeaders (Format call) (Arg2Reader call) = inr hs →
  Arg3Reader call = inr body →
  run_handler (h ctx (treq_of call hs body d now))
    (rw_of call (treq_of call hs body d now)) = (Panicked v, rw1) →
  (handle h ctx now call).1 = Panicked v ∧
  system_errors (log (handle h ctx now call).2) =
    system_errors (log (Response call)).
Proof.
  intros Hd Hh Hb Hrun. split.
  - rewrite (handle_accepted _ _ _ _ _ _ _ Hd Hh Hb). cbv zeta.
    by rewrite Hrun.
  - rewrite (handle_system_errors _ _ _ _ _ _ _ Hd Hh Hb), Hrun. simpl.
    by rewrite app_nil_r.
Qed.

(** C1, on the TChannel dispatcher: there is no recovery around [Handle].
    With the handler of [TestHandlerPanic] on a well-formed call, [handle]
    itself panics with the handler's value; the two deferred closes have
    run, and no system error was sent. *)
Theorem handle_lets_a_panic_through :
  handle panickedHandler with_deadline 0 sample_call =
    (Panicked "oops I panicked!",
     {| log :=
          [Arg2ReaderCalled; Arg3ReaderCalled;
           HandleInvoked
             (treq_of sample_call {[ "k" := "v" ]} hello 1000000000 0);
           RequestBodyClosed];
        script := [] |}) ∧
  system_errors (log (handle panickedHandler with_deadline 0 sample_call).2)
    = [].
Proof. split; reflexivity. Qed.

(** The TChannel scenario of the spec on this dispatcher: the handler adds
    the header [a: b] and writes [world]. *)
Example handle_worldHandler :
  handle worldHandler with_deadline 0 sample_call =
    (Returned (),
     {| log :=
          [Arg2ReaderCalled; Arg3ReaderCalled;
           HandleInvoked
             (treq_of sample_call {[ "k" := "v" ]} hello 1000000000 0);
           Arg2Written "raw" {[ "a" := "b" ]}; Arg3WriterOpened;
           Arg3Written world; Arg3WriterClosed; RequestBodyClosed];
        script := [] |}).
Proof. vm_compute. reflexivity. Qed.

(** ** HTTP header conventions *)




















(** The first two cases of [TestHandlerHeaders] and the header assertions
    of [TestResponseWriter]. *)
Example TestHandlerHeaders_grab :
  fromHTTPHeaders {[ "x-baz" ]} give_headers =
    {[ "foo" := "bar"; "x-baz" := "bat" ]}.
Proof. vm_compute. reflexivity. Qed.

Example TestHandlerHeaders_ignored :
  fromHTTPHeaders ∅ {[ "Context-Ttl-Ms" := "100"; "Rpc-Foo" := "ignored" ]} = ∅.
Proof. vm_compute. reflexivity. Qed.

Example TestResponseWriter_headers :
  httpHeader_Get "rpc-header-foo"
    (toHTTPHeaders {[ "foo" := "bar"; "shard-key" := "123" ]} ∅) = Some "bar" ∧
  httpHeader_Get "rpc-header-shard-key"
    (toHTTPHeaders {[ "foo" := "bar"; "shard-key" := "123" ]} ∅) = Some "123".
Proof. vm_compute. auto. Qed.

(** * Further properties of the dispatcher and of the response writer *)

(** ** The shape of a response *)

Lemma body_shape_written ws :
  forallb is_written ws = true →
  body_shape ws = true ∧ body_shape (ws ++ [Arg3WriterClosed]) = true.
Proof.
  induction ws as [|e ws IH]; simpl; [done|].
  destruct e; simpl; try discriminate. done.
Qed.

Lemma writer_shape_new f r : writer_shape (log r) (newResponseWriter f r) [].
Proof.
  split; simpl; try done. by rewrite app_nil_r.
Qed.

Ltac writer_shape_fields Hlog :=
  split; simpl;
  [ rewrite ?Hlog, <- ?app_assoc; simpl; rewrite ?app_nil_r; reflexivity
  | intros; first [ done | discriminate ]
  | intros;
    first [ done | discriminate
          | split; [by eexists|]; first [by left | by right] ]
  | intros Hsome;
    first [ by destruct Hsome
          | split; [done|]; eexists; split; [reflexivity|];
            rewrite ?forallb_app; simpl;
            first [ done | by rewrite andb_true_r ] ] ].

Lemma writer_shape_Write base rw added s :
  writer_shape base rw added →
  ∃ es, writer_shape base (Write s rw).2 (added ++ es).
Proof.
  intros [Hlog Hopen Hun Hbody].
  destruct rw as [fw bw f hs [lg sc] wh]; simpl in *.
  writer_unfold.
  destruct fw as [e|]; simpl.
  { exists []. rewrite app_nil_r. by split. }
  destruct wh; simpl.
  - destruct bw as [w|].
    + destruct Hbody as [_ (ws & -> & Hws)]; [by eexists|].
      destruct sc as [|[ft|] sc]; simpl; eexists [_];
        writer_shape_fields Hlog.
    + destruct (Hun eq_refl eq_refl) as [[? [=]] _].
  - destruct (Hopen eq_refl) as (-> & -> & _).
    destruct sc as [|[ft|] [|[ft2|] [|[ft3|] sc]]]; simpl;
      first [ exists []; writer_shape_fields Hlog
            | eexists [_]; writer_shape_fields Hlog
            | eexists [_; _; _]; writer_shape_fields Hlog ].
Qed.

Lemma writer_shape_AddHeaders base rw added h :
  writer_shape base rw added →
  writer_shape base (AddHeaders h rw).2 added.
Proof.
  intros [Hlog Hopen Hun Hbody].
  unfold AddHeaders. destruct (wroteHeaders rw) eqn:Hwh; simpl.
  - split; rewrite ?Hwh; [done|intros [=]|by auto|by auto].
  - destruct (Hopen eq_refl) as (-> & Hb & Hf).
    split; simpl; rewrite ?Hwh, ?Hb; [done|done|intros [=]|by intros [? ?]].
Qed.

Lemma writer_shape_run_handler base p : ∀ rw added,
  writer_shape base rw added →
  ∃ es, writer_shape base (run_handler p rw).2 (added ++ es).
Proof.
  induction p as [err|v|h k IH|s k IH]; intros rw added Hinv; simpl.
  - exists []. by rewrite app_nil_r.
  - exists []. by rewrite app_nil_r.
  - pose proof (writer_shape_AddHeaders _ _ _ h Hinv) as H1.
    destruct (AddHeaders h rw) as [v rw1]. by apply IH.
  - destruct (writer_shape_Write _ _ _ s Hinv) as [es1 H1].
    destruct (Write s rw) as [[n err] rw1]; simpl in *.
    destruct (IH n err _ _ H1) as [es2 H2].
    exists (es1 ++ es2). by rewrite app_assoc.
Qed.

(** What [Close] logs, also when the response has meanwhile logged
    something else. *)
Lemma Close_log_closing rw r' :
  script r' = script (response rw) →
  log (response (Close (set_response r' rw)).2) = log r' ++ closing rw.
Proof.
  destruct rw as [fw bw f hs [lg sc] wh], r' as [lg' sc'].
  simpl. intros ->. unfold closing. writer_unfold.
  destruct bw, sc as [|[ft|] sc], fw; simpl; by rewrite ?app_nil_r.
Qed.

Lemma set_response_same rw : set_response (response rw) rw = rw.
Proof. by destruct rw. Qed.

Lemma writer_shape_closing base rw added :
  writer_shape base rw added →
  response_shape (added ++ closing rw) = true ∧
  (added = [] ∧ closing rw = [] ∨
   ∃ rest, added ++ closing rw =
             Arg2Written (format rw) (headers rw) :: rest ∧
           flushed_headers rest = []).
Proof.
  intros [Hlog Hopen Hun Hbody]. unfold closing.
  destruct (bodyWriter rw) as [w|] eqn:Hb.
  - destruct Hbody as [_ (ws & -> & Hws)]; [by eexists|].
    destruct (body_shape_written _ Hws) as [H1 H2].
    assert (flushed_headers ws = []) as Hfh.
    { clear -Hws. induction ws as [|e ws IH]; simpl; [done|].
      simpl in Hws. apply andb_prop in Hws as [He Hws].
      destruct e; try discriminate. by apply IH. }
    destruct (ArgWriter_Close (response rw)).1; simpl.
    + rewrite app_nil_r. split; [done|]. right. by eexists.
    + split; [done|]. right. eexists. split; [reflexivity|].
      simpl. by rewrite flushed_headers_app, Hfh.
  - rewrite app_nil_r. destruct (wroteHeaders rw) eqn:Hw.
    + destruct (Hun eq_refl eq_refl) as [_ [->| ->]]; [by split; [|left]|].
      split; [done|]. right. by eexists.
    + destruct (Hopen eq_refl) as (-> & _). split; [done|]. by left.
Qed.

Lemma format_run_handler p : ∀ rw, format (run_handler p rw).2 = format rw.
Proof.
  induction p as [err|v|h k IH|s k IH]; intros rw; simpl; try done.
  - pose proof (IH (AddHeaders h rw).1 (AddHeaders h rw).2) as H1.
    destruct (AddHeaders h rw) as [v rw1] eqn:Ha; simpl in *. rewrite H1.
    unfold AddHeaders in Ha. by destruct (wroteHeaders rw); injection Ha as _ <-.
  - pose proof (IH (Write s rw).1.1 (Write s rw).1.2 (Write s rw).2) as H1.
    destruct (Write s rw) as [[n err] rw1] eqn:Hw; simpl in *. rewrite H1.
    clear -Hw. destruct rw as [fw bw f hs [lg sc] wh]. writer_unfold.
    destruct fw, wh, bw, sc as [|[ft|] [|[ft2|] [|[ft3|] sc]]]; simpl in *;
      by injection Hw as _ _ <-.
Qed.

(** ** What [handle] does once [Handle] has ended *)

(** The log and the completion of [handle] from the state in which
    [Handle] ended. *)
Lemma handle_tail h ctx now call d hs body res rw1 :
  Deadline ctx = Some d →
  readHeaders (Format call) (Arg2Reader call) = inr hs →
  Arg3Reader call = inr body →
  run_handler (h ctx (treq_of call hs body d now))
    (rw_of call (treq_of call hs body d now)) = (res, rw1) →
  log (handle h ctx now call).2 =
    log (response rw1) ++ sent_after res ++ closing rw1 ++ [RequestBodyClosed] ∧
  (handle h ctx now call).1 =
    match res with Returned _ => Returned () | Panicked v => Panicked v end.
Proof.
  intros Hd Hh Hb Hrun. rewrite (handle_accepted _ _ _ _ _ _ _ Hd Hh Hb).
  cbv zeta. rewrite Hrun. simpl. split; [|done].
  destruct res as [[err|]|v]; simpl.
  - rewrite Close_log_closing by done.
    unfold SendSystemError, record; simpl. by rewrite <- !app_assoc.
  - rewrite <- (set_response_same rw1) at 1.
    by rewrite Close_log_closing, <- !app_assoc.
  - rewrite <- (set_response_same rw1) at 1.
    by rewrite Close_log_closing, <- !app_assoc.
Qed.

(** After [Handle] has ended, [handle] logs, in this order and nothing
    else: the system error when [Handle] returned an error (also when body
    bytes are already on the wire, and before the body stream is closed);
    the close of the body stream when it was opened and the transport lets
    it be closed; the close of the request body.  It panics exactly when
    [Handle] did. *)
Theorem handle_after_Handle h ctx now call d hs body res rw1 :
  Deadline ctx = Some d →
  readHeaders (Format call) (Arg2Reader call) = inr hs →
  Arg3Reader call = inr body →
  run_handler (h ctx (treq_of call hs body d now))
    (rw_of call (treq_of call hs body d now)) = (res, rw1) →
  log (handle h ctx now call).2 =
    log (response rw1) ++ sent_after res ++ closing rw1 ++ [RequestBodyClosed] ∧
  (handle h ctx now call).1 =
    match res with Returned _ => Returned () | Panicked v => Panicked v end.
Proof.
  intros Hd Hh Hb Hrun. rewrite (handle_accepted _ _ _ _ _ _ _ Hd Hh Hb).
  cbv zeta. rewrite Hrun. simpl. split; [|done].
  assert (∀ r', script r' = script (response rw1) →
            log (response (Close (set_response r' rw1)).2) =
              log r' ++ closing rw1) as Hclose
    by (intros r'; apply Close_log_closing).
  destruct res as [[err|]|v]; simpl.
  - rewrite Hclose by done.
    unfold SendSystemError, record; simpl. by rewrite <- !app_assoc.
  - rewrite <- (set_response_same rw1) at 1.
    by rewrite Hclose, <- !app_assoc.
  - rewrite <- (set_response_same rw1) at 1.
    by rewrite Hclose, <- !app_assoc.
Qed.

Lemma handle_after_Handle_witness :
  log (handle
         (λ _ _, DoWrite world (λ _ _, Return (Some bad_request)))
         with_deadline 0 sample_call).2 =
    [Arg2ReaderCalled; Arg3ReaderCalled;
     HandleInvoked (treq_of sample_call {[ "k" := "v" ]} hello 1000000000 0);
     Arg2Written "raw" ∅; Arg3WriterOpened; Arg3Written world;
     SystemErrorSent
       (NewSystemError ErrCodeUnexpected "internal error: %v" bad_request);
     Arg3WriterClosed; RequestBodyClosed].
Proof.
  destruct (handle_after_Handle
              (λ _ _, DoWrite world (λ _ _, Return (Some bad_request)))
              with_deadline 0 sample_call 1000000000 {[ "k" := "v" ]} hello
              (Returned (Some bad_request))
              (run_handler
                 (DoWrite world (λ _ _, Return (Some bad_request)))
                 (rw_of sample_call
                    (treq_of sample_call {[ "k" := "v" ]} hello
                       1000000000 0))).2) as [H _];
    [reflexivity..|].
  rewrite H. vm_compute. reflexivity.
Defined.

(** ** Calls that are not accepted *)



(** ** The request body *)

(** For an accepted call the request body is closed once, the handler has
    been invoked before, and the close is the last thing [handle] does,
    however [Handle] ends. *)
Theorem handle_closes_request_body_last h ctx now call :
  accepted ctx call →
  ∃ req pre,
    log (handle h ctx now call).2 =
      log (Response call) ++ pre ++ [RequestBodyClosed] ∧
    HandleInvoked req ∈ pre ∧
    RequestBodyClosed ∉ pre.
Proof.
  intros ([d Hd] & [hs Hh] & [body Hb]).
  destruct (handle_log h _ now _ _ _ _ Hd Hh Hb)
    as (es1 & es2 & H1 & H2 & _ & Hlog).
  exists (treq_of call hs body d now),
    ([Arg2ReaderCalled; Arg3ReaderCalled;
      HandleInvoked (treq_of call hs body d now)] ++
     es1 ++
     sent_after (run_handler (h ctx (treq_of call hs body d now))
                   (rw_of call (treq_of call hs body d now))).1 ++
     es2).
  split; [|split].
  - rewrite Hlog. by rewrite <- !app_assoc.
  - apply elem_of_app. left. do 2 right. left.
  - assert (∀ es, Forall (λ e, is_flush e || is_body e = true) es →
                  RequestBodyClosed ∉ es) as Hframes.
    { intros es Hes Hin. rewrite Forall_forall in Hes.
      by specialize (Hes _ Hin). }
    rewrite !not_elem_of_app.
    split; [|split; [by apply Hframes|split; [|by apply Hframes]]].
    + intros Hin. repeat (apply elem_of_cons in Hin as [Hin|Hin]; [done|]).
      by apply elem_of_nil in Hin.
    + destruct (run_handler _ _).1 as [[err|]|v]; simpl;
        [|apply not_elem_of_nil..].
      intros Hin%list_elem_of_singleton. discriminate.
Qed.

Lemma handle_closes_request_body_last_witness :
  ∃ req pre,
    log (handle panickedHandler with_deadline 0 sample_call).2 =
      log (Response sample_call) ++ pre ++ [RequestBodyClosed] ∧
    HandleInvoked req ∈ pre ∧
    RequestBodyClosed ∉ pre.
Proof.
  apply handle_closes_request_body_last.
  split; [by eexists|]. split; eexists; reflexivity.
Defined.

(** ** The frames of a call's response *)

Lemma body_shape_frames l : body_shape l = true → frames l = l.
Proof.
  induction l as [|e l IH]; [done|].
  destruct e; simpl; try discriminate.
  - intros H. unfold frames in *; simpl. by rewrite IH.
  - by destruct l.
Qed.

Lemma response_shape_frames l : response_shape l = true → frames l = l.
Proof.
  destruct l as [|e l]; [done|].
  destruct e; simpl; try discriminate.
  destruct l as [|e l]; [done|].
  destruct e; simpl; try discriminate.
  intros H. unfold frames; simpl. fold (frames l).
  by rewrite (body_shape_frames l H).
Qed.

Lemma frames_app l l' : frames (l ++ l') = frames l ++ frames l'.
Proof. apply List.filter_app. Qed.

(** The response a pass through a writer leaves on the wire is: nothing; or
    one header frame; or one header frame, the opening of the body stream,
    body writes and at most one close, at the end.  So headers are written
    at most once, the body stream is opened at most once and closed at most
    once, and nothing follows the close.  The header frame is in the format
    the writer was made with and carries the headers the writer holds.  For
    a call, the frames [handle] logs have this shape and the header frame
    is in the call's format.  This holds for every handler and whatever the
    transport answers. *)
Theorem response_frames_shape :
  (∀ f r p,
     let rw1 := (run_handler p (newResponseWriter f r)).2 in
     ∃ added,
       log (response (Close rw1).2) = log r ++ added ∧
       response_shape added = true ∧
       (added = [] ∨
        ∃ rest, added = Arg2Written f (headers rw1) :: rest ∧
                flushed_headers rest = [])) ∧
  (∀ h ctx now call,
     ∃ added,
       log (handle h ctx now call).2 = log (Response call) ++ added ∧
       response_shape (frames added) = true ∧
       (flushed_headers added = [] ∨
        ∃ hs, flushed_headers added = [(Format call, hs)])).
Proof.
  split.
  - intros f r p rw1.
    destruct (writer_shape_run_handler _ p _ _ (writer_shape_new f r))
      as [es Hshape]. fold rw1 in Hshape. simpl in Hshape.
    destruct (writer_shape_closing _ _ _ Hshape) as [H1 H2].
    exists (es ++ closing rw1). split; [|split; [done|]].
    + rewrite <- (set_response_same rw1) at 1.
      rewrite Close_log_closing by done.
      by rewrite (shape_log _ _ _ Hshape), <- app_assoc.
    + destruct H2 as [[-> ->]|(rest & -> & Hrest)]; [by left|].
      right. exists rest. split; [|done].
      subst rw1. by rewrite format_run_handler.
  - intros h ctx now call.
    destruct (Deadline ctx) as [d|] eqn:Hd;
      [destruct (readHeaders (Format call) (Arg2Reader call))
         as [e|hs] eqn:Hh;
       [|destruct (Arg3Reader call) as [e|body] eqn:Hb]|].
    + unfold handle. rewrite Hd, Hh. eexists. split; simpl.
      * rewrite <- !app_assoc. reflexivity.
      * split; [done|by left].
    + unfold handle. rewrite Hd, Hh, Hb. eexists. split; simpl.
      * rewrite <- !app_assoc. reflexivity.
      * split; [done|by left].
    + set (treq := treq_of call hs body d now).
      destruct (writer_shape_run_handler _ (h ctx treq) _ _
                  (writer_shape_new (Format call)
                     (record (HandleInvoked treq)
                        (record Arg3ReaderCalled
                           (record Arg2ReaderCalled (Response call))))))
        as [es Hshape].
      fold (rw_of call treq) in Hshape. simpl in Hshape.
      destruct (run_handler (h ctx treq) (rw_of call treq))
        as [res rw1] eqn:Hrun.
      destruct (handle_tail _ _ now _ _ _ _ _ _ Hd Hh Hb Hrun)
        as [Hlog _].
      simpl in Hshape.
      destruct (writer_shape_closing _ _ _ Hshape) as [H1 H2].
      exists ([Arg2ReaderCalled; Arg3ReaderCalled; HandleInvoked treq] ++
              es ++ sent_after res ++ closing rw1 ++ [RequestBodyClosed]).
      split; [|split].
      * rewrite Hlog, (shape_log _ _ _ Hshape). by rewrite <- !app_assoc.
      * assert (frames (sent_after res) = []) as Hsent
          by by destruct res as [[err|]|v].
        rewrite !frames_app, Hsent. simpl.
        rewrite app_nil_r, <- frames_app.
        by rewrite (response_shape_frames _ H1).
      * assert (flushed_headers (sent_after res) = []) as Hsent
          by by destruct res as [[err|]|v].
        rewrite !flushed_headers_app, Hsent. simpl. rewrite app_nil_r.
        rewrite <- flushed_headers_app.
        destruct H2 as [[-> ->]|(rest & -> & Hrest)]; [by left|].
        right. exists (headers rw1). simpl. rewrite Hrest.
        replace (format rw1) with (Format call); [done|].
        change rw1 with (res, rw1).2. rewrite <- Hrun.
        by rewrite format_run_handler.
    + unfold handle. rewrite Hd. eexists. split; [reflexivity|].
      split; [done|by left].
Qed.

(** A handler that adds headers but never calls [Write] leaves no frame on
    the wire, even when it returns nil: the headers it added are not sent
    and no body is opened.  What [handle] logs is the two readers, the
    invocation, the system error if the handler returned an error, and the
    close of the request body. *)
Lemma never_writes_run p : ∀ rw,
  never_writes p → wroteHeaders rw = false → bodyWriter rw = None →
  response (run_handler p rw).2 = response rw ∧
  bodyWriter (run_handler p rw).2 = None.
Proof.
  induction p as [err|v|h k IH|s k IH]; intros rw Hnw Hw Hb; simpl;
    try done.
  unfold AddHeaders. rewrite Hw.
  destruct (IH None (set_headers (merge_headers h (headers rw)) rw))
    as [H1 H2]; [apply Hnw|done|done|].
  by rewrite H1, H2.
Qed.

Theorem handler_that_never_writes h ctx now call d hs body :
  Deadline ctx = Some d →
  readHeaders (Format call) (Arg2Reader call) = inr hs →
  Arg3Reader call = inr body →
  never_writes (h ctx (treq_of call hs body d now)) →
  log (handle h ctx now call).2 =
    log (Response call) ++
    [Arg2ReaderCalled; Arg3ReaderCalled;
     HandleInvoked (treq_of call hs body d now)] ++
    sent_after (run_handler (h ctx (treq_of call hs body d now))
                  (rw_of call (treq_of call hs body d now))).1 ++
    [RequestBodyClosed].
Proof.
  intros Hd Hh Hb Hnw.
  set (treq := treq_of call hs body d now) in *.
  destruct (never_writes_run _ (rw_of call treq) Hnw eq_refl eq_refl)
    as [Hresp Hbw].
  destruct (run_handler (h ctx treq) (rw_of call treq))
    as [res rw1] eqn:Hrun.
  destruct (handle_tail _ _ now _ _ _ _ _ _ Hd Hh Hb Hrun)
    as [Hlog _].
  simpl in *. rewrite Hlog, Hresp. unfold closing. rewrite Hbw. simpl.
  by rewrite <- !app_assoc.
Qed.

Lemma handler_that_never_writes_witness :
  log (handle headersOnlyHandler with_deadline 0 sample_call).2 =
    [Arg2ReaderCalled; Arg3ReaderCalled;
     HandleInvoked (treq_of sample_call {[ "k" := "v" ]} hello 1000000000 0);
     RequestBodyClosed].
Proof.
  rewrite (handler_that_never_writes headersOnlyHandler with_deadline 0
             sample_call 1000000000 {[ "k" := "v" ]} hello);
    [reflexivity..|].
  intros v. exact I.
Defined.

(** ** System errors and the remaining time *)

(** Whatever the call, [handle] sends at most one system error, and none
    when it panics. *)
Theorem handle_sends_at_most_one_system_error h ctx now call :
  ∃ errs,
    system_errors (log (handle h ctx now call).2) =
      system_errors (log (Response call)) ++ errs ∧
    (length errs ≤ 1)%nat ∧
    (∀ v, (handle h ctx now call).1 = Panicked v → errs = []).
Proof.
  destruct (Deadline ctx) as [d|] eqn:Hd;
    [destruct (readHeaders (Format call) (Arg2Reader call))
       as [e|hs] eqn:Hh;
     [|destruct (Arg3Reader call) as [e|body] eqn:Hb]|].
  - unfold handle. rewrite Hd, Hh. eexists [_]. simpl.
    rewrite !system_errors_app. simpl. by rewrite app_nil_r.
  - unfold handle. rewrite Hd, Hh, Hb. eexists [_]. simpl.
    rewrite !system_errors_app. simpl. by rewrite !app_nil_r.
  - eexists. split; [by apply (handle_system_errors _ _ _ _ _ _ _ Hd Hh Hb)|].
    rewrite (handle_accepted _ _ _ _ _ _ _ Hd Hh Hb). cbv zeta. simpl.
    destruct (run_handler _ _).1 as [[err|]|v]; simpl; split; try lia; done.
  - unfold handle. rewrite Hd. eexists [_]. simpl.
    by rewrite system_errors_app.
Qed.

Lemma Time_Sub_sign d now : (Time_Sub d now ≤ 0 ↔ d ≤ now)%Z.
Proof.
  unfold Time_Sub, maxDuration, minDuration.
  change (2 ^ 63)%Z with 9223372036854775808%Z. lia.
Qed.

Lemma Time_Sub_in_range d now :
  (minDuration ≤ d - now ≤ maxDuration)%Z → Time_Sub d now = (d - now)%Z.
Proof. unfold Time_Sub. lia. Qed.

(** [handle] does not compare the deadline with the clock: a call whose
    deadline has already passed is handed to the handler all the same, with
    a time to live that is zero or negative.  The time to live is the
    deadline minus the clock reading whenever that fits a [time.Duration]. *)
Theorem handle_does_not_check_expiry h ctx now call d hs body :
  Deadline ctx = Some d →
  readHeaders (Format call) (Arg2Reader call) = inr hs →
  Arg3Reader call = inr body →
  ∃ req,
    handled (log (handle h ctx now call).2) =
      handled (log (Response call)) ++ [req] ∧
    (TTL req ≤ 0 ↔ d ≤ now)%Z ∧
    ((minDuration ≤ d - now ≤ maxDuration)%Z → TTL req = (d - now)%Z).
Proof.
  intros Hd Hh Hb. exists (treq_of call hs body d now).
  split; [|split].
  - destruct (handle_log h _ now _ _ _ _ Hd Hh Hb)
      as (es1 & es2 & H1 & H2 & _ & ->).
    rewrite !handled_app.
    rewrite (proj2 (frame_events_silent _ H1)).
    rewrite (proj2 (frame_events_silent _ H2)).
    simpl. destruct (run_handler _ _).1 as [[err|]|v]; done.
  - apply Time_Sub_sign.
  - apply Time_Sub_in_range.
Qed.

Lemma handle_does_not_check_expiry_witness :
  ∃ req,
    handled (log (handle worldHandler expired 0 sample_call).2) = [req] ∧
    TTL req = (-1000000000)%Z.
Proof.
  destruct (handle_does_not_check_expiry worldHandler expired 0 sample_call
              (-1000000000) {[ "k" := "v" ]} hello)
    as (req & H1 & _ & H3); [reflexivity..|].
  exists req. split; [exact H1|]. rewrite H3; [reflexivity|].
  unfold minDuration, maxDuration. split; vm_compute; discriminate.
Defined.

(** ** More on the response writer *)

(** [Write] reports what it wrote: whatever the state of the writer and
    whatever the transport answers, the body on the wire grows by exactly
    the first [n] bytes given, [n] being the count [Write] returns; [n] is
    all of them when [Write] returns no error and never more than were given. *)
Theorem Write_reports_what_it_wrote s rw :
  body_bytes (log (response (Write s rw).2)) =
    body_bytes (log (response rw)) ++ take (Write s rw).1.1 s ∧
  ((Write s rw).1.1 ≤ length s)%nat ∧
  ((Write s rw).1.2 = None → (Write s rw).1.1 = length s).
Proof.
  destruct rw as [fw bw f hs [lg sc] wh]. writer_unfold.
  destruct fw, wh, bw, sc as [|[ft|] [|[ft2|] [|[ft3|] sc]]]; simpl;
    unfold body_bytes; rewrite ?omap_app, ?concat_app; simpl;
    rewrite ?firstn_all, ?app_nil_r;
    (split; [|split]); try done; try lia.
Qed.

(** Two calls of [AddHeaders] before the first [Write], with lower-case
    keys: the pending headers are the union in which the second call wins
    over the first and the first over what was pending, and this union is
    what a first [Write] that succeeds puts on the wire. *)
Theorem AddHeaders_twice_then_Write h1 h2 rw :
  Open rw → canonical h1 → canonical h2 →
  headers (AddHeaders h2 (AddHeaders h1 rw).2).2 = h2 ∪ (h1 ∪ headers rw) ∧
  (∀ k v, h2 !! k = Some v →
          headers (AddHeaders h2 (AddHeaders h1 rw).2).2 !! k = Some v) ∧
  (∀ s n rw1,
     Write s (AddHeaders h2 (AddHeaders h1 rw).2).2 = ((n, None), rw1) →
     flushed_headers (log (response rw1)) =
       flushed_headers (log (response rw)) ++
       [(format rw, h2 ∪ (h1 ∪ headers rw))]).
Proof.
  intros (Hf & Hw & Hb) Hc1 Hc2.
  assert (AddHeaders h2 (AddHeaders h1 rw).2 =
          (None, set_headers (h2 ∪ (h1 ∪ headers rw)) rw)) as Heq.
  { unfold AddHeaders. rewrite Hw. simpl. rewrite Hw.
    by rewrite !merge_headers_canonical. }
  rewrite Heq. simpl. split; [done|]. split.
  - intros k v Hk. by apply lookup_union_Some_l.
  - intros s n rw1 Hwrite.
    destruct (Write_first s (set_headers (h2 ∪ (h1 ∪ headers rw)) rw) n rw1)
      as [_ ->]; [by repeat split|done|].
    simpl. by rewrite flushed_headers_app.
Qed.

Lemma AddHeaders_twice_then_Write_witness :
  headers
    (AddHeaders {[ "foo" := "baz" ]}
       (AddHeaders foo_bar (newResponseWriter "raw" healthy)).2).2 =
    {[ "foo" := "baz" ]}.
Proof.
  destruct (AddHeaders_twice_then_Write foo_bar {[ "foo" := "baz" ]}
              (newResponseWriter "raw" healthy)) as [H _].
  - repeat split.
  - intros k [v Hk]. unfold foo_bar in Hk.
    apply lookup_singleton_Some in Hk as [<- _]. reflexivity.
  - intros k [v Hk].
    apply lookup_singleton_Some in Hk as [<- _]. reflexivity.
  - rewrite H. vm_compute. reflexivity.
Defined.

(** How a first [Write] fails.  It returns an error on an Open writer in
    one of three ways: the header flush failed and nothing is on the wire;
    or the headers are on the wire and the body stream did not open; or the
    body stream is open and took the first [n] bytes only.  In all three the
    error is stored, the headers count as written, and [n] is zero unless
    the body stream is open. *)
Theorem first_Write_failure s rw n e rw1 :
  Open rw → Write s rw = ((n, Some e), rw1) →
  failedWith rw1 = Some e ∧ wroteHeaders rw1 = true ∧
  (n = 0 ∧ bodyWriter rw1 = None ∧
   (log (response rw1) = log (response rw) ∨
    log (response rw1) =
      log (response rw) ++ [Arg2Written (format rw) (headers rw)]) ∨
   (n ≤ length s)%nat ∧ is_Some (bodyWriter rw1) ∧
   log (response rw1) =
     log (response rw) ++
     [Arg2Written (format rw) (headers rw); Arg3WriterOpened;
      Arg3Written (take n s)]).
Proof.
  intros (Hf & Hw & Hb).
  destruct rw as [fw bw f hs [lg sc] wh]; simpl in *; subst.
  writer_unfold.
  destruct sc as [|[ft|] [|[ft2|] [|[ft3|] sc]]]; simpl;
    intros [= <- <- <-]; simpl; (split; [done|]); (split; [done|]);
    rewrite <- ?app_assoc; simpl;
    first [ by left; auto
          | right; split; [lia|]; split; [by eexists|done] ].
Qed.

Lemma first_Write_failure_witness :
  Write hi (foo_bar_writer fails_on_flush) =
    ((0, Some connection_reset),
     (Write hi (foo_bar_writer fails_on_flush)).2) ∧
  log (response (Write hi (foo_bar_writer fails_on_flush)).2) = [].
Proof.
  split; [vm_compute; reflexivity|].
  destruct (first_Write_failure hi (foo_bar_writer fails_on_flush) 0
              connection_reset (Write hi (foo_bar_writer fails_on_flush)).2)
    as (_ & _ & [(_ & _ & [H|H])|(_ & [w Hw] & _)]).
  - repeat split.
  - vm_compute. reflexivity.
  - exact H.
  - vm_compute in H. discriminate H.
  - vm_compute in Hw. discriminate Hw.
Defined.

Lemma run_handler_failed_bodyWriter p : ∀ rw e,
  failedWith rw = Some e →
  bodyWriter (run_handler p rw).2 = bodyWriter rw.
Proof.
  induction p as [err|v|h k IH|s k IH]; intros rw e Hf; simpl; try done.
  - unfold AddHeaders. destruct (wroteHeaders rw); [by eapply IH|].
    by rewrite (IH None (set_headers (merge_headers h (headers rw)) rw) e Hf).
  - rewrite (Write_failed _ e) by done. by eapply IH.
Qed.

(** Once a writer has failed, nothing the handler does reaches the wire any
    more; closing the writer still closes the body stream if it is open,
    and returns the stored error whatever that close gives.  So headers
    whose flush failed are never sent. *)
Theorem failed_writer_only_closes rw e p :
  failedWith rw = Some e →
  log (response (Close (run_handler p rw).2).2) =
    log (response rw) ++ closing rw ∧
  (Close (run_handler p rw).2).1 = Some e.
Proof.
  intros Hf.
  destruct (run_handler_failed p rw e Hf) as [Hf1 Hr1].
  pose proof (run_handler_failed_bodyWriter p rw e Hf) as Hb1.
  split.
  - rewrite <- (set_response_same (run_handler p rw).2) at 1.
    rewrite Close_log_closing by done. rewrite Hr1. f_equal.
    unfold closing. by rewrite Hb1, Hr1.
  - by rewrite Close_result, Hf1.
Qed.

Lemma failed_writer_only_closes_witness :
  log (response
         (Close
            (run_handler (DoWrite world (λ _ _, Return None))
               (Write hi (foo_bar_writer fails_on_flush)).2).2).2) = [].
Proof.
  destruct (failed_writer_only_closes
              (Write hi (foo_bar_writer fails_on_flush)).2 connection_reset
              (DoWrite world (λ _ _, Return None))) as [H _].
  - vm_compute. reflexivity.
  - rewrite H. vm_compute. reflexivity.
Defined.

(** ** [headerCopyWithout] *)






(** ** The generated code of the Echo service *)

Section EchoProperties.
Context {Ping Pong : Type} `{!wireStruct Ping} `{!wireStruct Pong}.

Lemma Echo_Echo_Args_FromWire_fields_skips fields : ∀ v : Echo_Echo_Args Ping,
  (∀ id value, (id, value) ∈ fields → id = 1%Z → is_TStruct value = false) →
  Echo_Echo_Args_FromWire_fields fields v = (v, None).
Proof.
  induction fields as [|[id value] fields IH]; intros v Hskip; simpl; [done|].
  assert (Echo_Echo_Args_FromWire_fields fields v = (v, None)) as Hrest.
  { apply IH. intros id' value' Hin. apply Hskip. by right. }
  destruct (id =? 1)%Z eqn:Hid; [|done].
  apply Z.eqb_eq in Hid. rewrite (Hskip id value); [done|by left|done].
Qed.

(** What [Echo_Echo_Args.FromWire] skips and how it fails.  A value that is
    not a struct, or a struct with no struct-typed field of ID 1, is read
    without error and leaves the struct as it was.  When reading the first
    usable field fails, [FromWire] returns that error at once and leaves
    [Ping] set to what was read of it. *)
Theorem Echo_Echo_Args_FromWire_edge (v : Echo_Echo_Args Ping) :
  (∀ w, is_TStruct w = false → Echo_Echo_Args_FromWire w v = (v, None)) ∧
  (∀ fields,
     (∀ id value, (id, value) ∈ fields → id = 1%Z → is_TStruct value = false) →
     Echo_Echo_Args_FromWire (NewValueStruct fields) v = (v, None)) ∧
  (∀ skipped w rest p e,
     (∀ id value, (id, value) ∈ skipped → id = 1%Z → is_TStruct value = false) →
     is_TStruct w = true → FromWire w = (p, Some e) →
     Echo_Echo_Args_FromWire (NewValueStruct (skipped ++ (1%Z, w) :: rest)) v =
       ({| Ping_ := Some p |}, Some e)).
Proof.
  split; [|split].
  - intros w Hw. unfold Echo_Echo_Args_FromWire.
    by destruct w.
  - intros fields Hskip. by apply Echo_Echo_Args_FromWire_fields_skips.
  - intros skipped w rest p e Hskip Hw Hp.
    unfold Echo_Echo_Args_FromWire; simpl.
    induction skipped as [|[id value] skipped IH]; simpl.
    + rewrite Hw. unfold _Ping_Read. by rewrite Hp.
    + assert (∀ id' value', (id', value') ∈ skipped → id' = 1%Z →
                is_TStruct value' = false) as Hskip'.
      { intros id' value' Hin. apply Hskip. by right. }
      destruct (id =? 1)%Z eqn:Hid; [|by apply IH].
      apply Z.eqb_eq in Hid.
      rewrite (Hskip id value); [by apply IH|by left|done].
Qed.

(** Round trip of the arguments.  What [ToWire] gives without error for
    arguments whose [Ping] is set is read back by [FromWire] into any
    struct; for arguments whose [Ping] is nil it is the struct with no
    fields, which [FromWire] reads without touching the struct, so the
    arguments come back when reading into the zero value. *)
Theorem Echo_Echo_Args_round_trip (v : Echo_Echo_Args Ping) w :
  wire_round_trip Ping →
  Echo_Echo_Args_ToWire v = (w, None) →
  Echo_Echo_Args_FromWire w {| Ping_ := None |} = (v, None) ∧
  (is_Some (Ping_ v) → ∀ v0, Echo_Echo_Args_FromWire w v0 = (v, None)) ∧
  (Ping_ v = None → w = NewValueStruct [] ∧
                    ∀ v0, Echo_Echo_Args_FromWire w v0 = (v0, None)).
Proof.
  intros Hrt. unfold Echo_Echo_Args_ToWire.
  destruct v as [[p|]]; simpl.
  - destruct (ToWire p) as [w' [e|]] eqn:Hp; [discriminate|].
    intros [= <-]. destruct (Hrt p w' Hp) as [Hw Hf].
    assert (∀ v0, Echo_Echo_Args_FromWire (NewValueStruct [(1%Z, w')]) v0 =
                  ({| Ping_ := Some p |}, None)) as Hall.
    { intros v0. unfold Echo_Echo_Args_FromWire; simpl.
      rewrite Hw. unfold _Ping_Read. by rewrite Hf. }
    split; [apply Hall|]. split; [by intros _|discriminate].
  - intros [= <-]. split; [done|]. split; [by intros [? ?]|done].
Qed.

(** [Echo_Echo_Result] has exactly one field.  [ToWire] of a result without
    [Success] returns the zero value and the error for zero fields;
    [FromWire] of a value with no struct-typed field of ID 0 into the zero
    value returns that same error.  What [ToWire] gives without error is
    read back by [FromWire] into any struct. *)
Theorem Echo_Echo_Result_exactly_one_field (v : Echo_Echo_Result Pong) :
  (Success v = None →
   Echo_Echo_Result_ToWire v = (ValueZero, Some (one_field_error 0))) ∧
  (∀ w, Echo_Echo_Result_ToWire v = (w, None) →
        is_Some (Success v) ∧
        (wire_round_trip Pong →
         ∀ v0, Echo_Echo_Result_FromWire w v0 = (v, None))) ∧
  (∀ fields,
     (∀ id value, (id, value) ∈ fields → id = 0%Z → is_TStruct value = false) →
     Echo_Echo_Result_FromWire (NewValueStruct fields) {| Success := None |} =
       ({| Success := None |}, Some (one_field_error 0))).
Proof.
  split; [|split].
  - intros Hs. unfold Echo_Echo_Result_ToWire. by rewrite Hs.
  - intros w. unfold Echo_Echo_Result_ToWire.
    destruct v as [[p|]]; simpl; [|discriminate].
    destruct (ToWire p) as [w' [e|]] eqn:Hp; [discriminate|].
    intros [= <-]. split; [by eexists|].
    intros Hrt v0. destruct (Hrt p w' Hp) as [Hw Hf].
    unfold Echo_Echo_Result_FromWire; simpl.
    rewrite Hw. unfold _Pong_Read. by rewrite Hf.
  - intros fields Hskip. unfold Echo_Echo_Result_FromWire; simpl.
    assert (Echo_Echo_Result_FromWire_fields fields {| Success := None |} =
            ({| Success := None |}, None)) as ->; [|done].
    induction fields as [|[id value] fields IH]; simpl; [done|].
    assert (Echo_Echo_Result_FromWire_fields fields {| Success := None |} =
            ({| Success := None |}, None)) as Hrest.
    { apply IH. intros id' value' Hin. apply Hskip. by right. }
    destruct (id =? 0)%Z eqn:Hid; [|done].
    apply Z.eqb_eq in Hid. rewrite (Hskip id value); [done|by left|done].
Qed.

(** Wrapping and unwrapping a response.  With no error, [WrapResponse]
    gives a result that [UnwrapResponse] turns back into the value when
    there is one, and into the error [expected a non-void result] when the
    value is nil, in which case [ToWire] refuses the result as well.  With
    an error, [WrapResponse] gives no result and hands the error back as it
    is: no error is an exception of [echo]. *)
Theorem Echo_Echo_Helper_wrap_unwrap (success : option Pong) :
  (∃ r, Echo_Echo_Helper_WrapResponse success None = (Some r, None) ∧
        Echo_Echo_Helper_UnwrapResponse r =
          match success with
          | Some s => (Some s, None)
          | None => (None, Some (errorString "expected a non-void result"))
          end ∧
        (success = None → (Echo_Echo_Result_ToWire r).2 =
                          Some (one_field_error 0))) ∧
  (∀ e, Echo_Echo_Helper_WrapResponse success (Some e) = (None, Some e) ∧
        Echo_Echo_Helper_IsException e = false).
Proof.
  split; [|done].
  exists {| Success := success |}. split; [done|].
  split; [by destruct success|]. intros ->. done.
Qed.

(** [Equals] of the arguments tells whether two argument structs, or nil
    pointers, are the same, provided [Equals] of [Ping] does. *)
Theorem Echo_Echo_Args_Equals_decides (v rhs : option (Echo_Echo_Args Ping)) :
  Equals_decides Ping →
  Echo_Echo_Args_Equals v rhs = true ↔ v = rhs.
Proof.
  intros Hd. unfold Echo_Echo_Args_Equals.
  destruct v as [[[p|]]|], rhs as [[[q|]]|]; simpl; try done.
  rewrite (Hd p q). split; [by intros ->|by intros [= ->]].
Qed.

End EchoProperties.

Lemma beep_round_trip : wire_round_trip beep.
Proof.
  intros [s] w [= <-]. split; [reflexivity|].
  unfold FromWire; simpl. by rewrite string_of_list_byte_of_string.
Qed.

Lemma beep_Equals_decides : Equals_decides beep.
Proof.
  intros [s] [t]. unfold Equals; simpl. rewrite bool_decide_eq_true.
  split; [by intros ->|by intros [= ->]].
Qed.

Lemma Echo_Echo_Args_FromWire_edge_witness :
  Echo_Echo_Args_FromWire (NewValueBinary [])
    {| Ping_ := Some (mkBeep "hello") |} =
    ({| Ping_ := Some (mkBeep "hello") |}, None) ∧
  Echo_Echo_Args_FromWire
    (NewValueStruct [(2%Z, NewValueStruct []); (1%Z, NewValueStruct [])])
    {| Ping_ := None |} =
    ({| Ping_ := Some (mkBeep "") |},
     Some (errorString "field Beep of Ping is required")).
Proof.
  destruct (Echo_Echo_Args_FromWire_edge {| Ping_ := Some (mkBeep "hello") |})
    as (H1 & _ & _).
  destruct (Echo_Echo_Args_FromWire_edge (Ping := beep) {| Ping_ := None |})
    as (_ & _ & H3).
  split.
  - apply H1. reflexivity.
  - apply (H3 [(2%Z, NewValueStruct [])] (NewValueStruct []) []).
    + intros id value Hin Hid. apply list_elem_of_singleton in Hin.
      injection Hin as -> _. discriminate Hid.
    + reflexivity.
    + reflexivity.
Defined.

Lemma Echo_Echo_Args_round_trip_witness :
  Echo_Echo_Args_FromWire
    (Echo_Echo_Args_ToWire {| Ping_ := Some (mkBeep "hello") |}).1
    {| Ping_ := None |} =
    ({| Ping_ := Some (mkBeep "hello") |}, None).
Proof.
  destruct (Echo_Echo_Args_round_trip
              {| Ping_ := Some (mkBeep "hello") |}
              (Echo_Echo_Args_ToWire {| Ping_ := Some (mkBeep "hello") |}).1)
    as [H _].
  - exact beep_round_trip.
  - reflexivity.
  - exact H.
Defined.

Lemma Echo_Echo_Result_exactly_one_field_witness :
  Echo_Echo_Result_ToWire (Pong := beep) {| Success := None |} =
    (ValueZero,
     Some (errorString
             "Echo_Echo_Result should have exactly one field: got 0 fields")) ∧
  Echo_Echo_Result_FromWire
    (Echo_Echo_Result_ToWire {| Success := Some (mkBeep "hello") |}).1
    {| Success := None |} =
    ({| Success := Some (mkBeep "hello") |}, None).
Proof.
  split.
  - apply (proj1 (Echo_Echo_Result_exactly_one_field
                    (Pong := beep) {| Success := None |})).
    reflexivity.
  - destruct (Echo_Echo_Result_exactly_one_field
                {| Success := Some (mkBeep "hello") |}) as (_ & H & _).
    destruct (H (Echo_Echo_Result_ToWire
                   {| Success := Some (mkBeep "hello") |}).1) as [_ H2].
    + reflexivity.
    + apply H2. exact beep_round_trip.
Defined.

Lemma Echo_Echo_Helper_wrap_unwrap_witness :
  ∃ r, Echo_Echo_Helper_WrapResponse (Some (mkBeep "hello")) None =
         (Some r, None) ∧
       Echo_Echo_Helper_UnwrapResponse r = (Some (mkBeep "hello"), None).
Proof.
  destruct (Echo_Echo_Helper_wrap_unwrap (Some (mkBeep "hello")))
    as [(r & H1 & H2 & _) _].
  exists r. split; [exact H1|exact H2].
Defined.

Lemma Echo_Echo_Args_Equals_decides_witness :
  Echo_Echo_Args_Equals (Some {| Ping_ := Some (mkBeep "a") |})
    (Some {| Ping_ := Some (mkBeep "b") |}) = false.
Proof.
  apply not_true_is_false. intros H.
  apply Echo_Echo_Args_Equals_decides in H; [|exact beep_Equals_decides].
  discriminate H.
Defined.

Lemma handle_sends_at_most_one_system_error_witness :
  ∃ errs,
    system_errors (log (handle panickedHandler with_deadline 0 sample_call).2)
      = system_errors (log (Response sample_call)) ++ errs ∧
    errs = [].
Proof.
  destruct (handle_sends_at_most_one_system_error panickedHandler
              with_deadline 0 sample_call) as (errs & H1 & _ & H3).
  exists errs. split; [exact H1|].
  apply (H3 "oops I panicked!"). reflexivity.
Defined.

Lemma Write_reports_what_it_wrote_witness :
  body_bytes (log (response (Write hi (foo_bar_writer healthy)).2)) = hi ∧
  (Write hi (foo_bar_writer healthy)).1.1 = 2.
Proof.
  destruct (Write_reports_what_it_wrote hi (foo_bar_writer healthy))
    as (H1 & _ & H3).
  split.
  - rewrite H1. vm_compute. reflexivity.
  - rewrite H3; reflexivity.
Defined.
